(** * Point-mass forward modelling in spherical coordinates

    A shallow embedding of [harmonica/forward/point_mass.py]: the two gravity
    kernels, the accumulation loops [jit_point_mass_gravity] and
    [jit_point_masses_gravity], and the public entry point
    [point_mass_gravity].

    Numbers.  The program computes on numpy [float64] values.  The embedding
    is written once over an abstract carrier [F] with the operations the
    source uses ([Float64]); every statement proved for all carriers holds
    for whatever arithmetic runs underneath.  The carrier [binary64] is
    IEEE-754 double precision itself (the primitive floats), with the three
    functions of the C library left to a parameter ([libm]).

    Compiled code.  The kernels and the loops are compiled with
    [@jit(nopython=True)] and its default options.  Two of them show in the
    embedding: a float division whose divisor is zero raises
    [ZeroDivisionError] ([truediv]), and indexing is not bounds-checked, so
    an index past the end of an array returns whatever lies there
    ([getitem]).

    Arrays.  The output buffer is mutated in place, so it lives in a store
    ([world]) and is passed by address.  The coordinate arrays are only
    read: those read before the first write are values ([ndarray]: a shape
    and the elements in row-major order); [radius], which the accumulation
    loop indexes between its writes, is a value or a view of a buffer of
    the store ([array_arg]).

    The gravitational constant is imported from another module; it is a
    parameter, [GRAVITATIONAL_CONST]. *)

From Stdlib Require Import ZArith List String Floats Uint63.
From stdpp Require Import gmap strings list.

Set Default Proof Using "Type".

(** ** Arithmetic of the carrier *)

Class Float64 (F : Type) : Type := {
  of_Z : Z → F;             (* a numeric literal, or an [int] turned into a float *)
  fadd : F → F → F;         (* x + y *)
  fsub : F → F → F;         (* x - y *)
  fmul : F → F → F;         (* x * y *)
  fdiv : F → F → F;         (* x / y, the divisor not zero *)
  fpow_int : F → nat → F;   (* x ** n, integer exponent *)
  fpow : F → F → F;         (* x ** y, float exponent *)
  np_sqrt : F → F;
  np_cos : F → F;
  np_sin : F → F;
  np_radians : F → F;
  is_zero : F → bool;       (* x == 0.0 *)
}.

Declare Scope carrier_scope.
Delimit Scope carrier_scope with fl.
Notation "x + y" := (fadd x y) : carrier_scope.
Notation "x - y" := (fsub x y) : carrier_scope.
Notation "x * y" := (fmul x y) : carrier_scope.
Notation "x / y" := (fdiv x y) : carrier_scope.
Notation "x ^ n" := (fpow_int x n) : carrier_scope.
Notation "x ** y" := (fpow x y) (at level 30, right associativity) : carrier_scope.
Notation "0" := (of_Z 0%Z) : carrier_scope.
Notation "1" := (of_Z 1%Z) : carrier_scope.
Notation "2" := (of_Z 2%Z) : carrier_scope.
Notation "3" := (of_Z 3%Z) : carrier_scope.
Notation "'1e5'" := (of_Z 100000%Z) : carrier_scope.

(** ** Kernels (lines 118-152)

    The expressions of the kernels.  What the compiled kernels do when the
    divisor of their last division is zero is in [jit_kernel_potential] and
    [jit_kernel_g_radial] below. *)

Section Kernels.
Context {F : Type} `{Float64 F}.
Local Open Scope carrier_scope.

(** A kernel takes the nine prepared quantities of one observation point
    and one point mass. *)
Definition Kernel : Type := F → F → F → F → F → F → F → F → F → F.

(** The local [cospsi] of both kernels (lines 130-131 and 148-149). *)
Definition cospsi (longitude cosphi sinphi longitude_p cosphi_p sinphi_p : F) : F :=
  let coslambda := np_cos (longitude_p - longitude) in
  sinphi_p * sinphi + cosphi_p * cosphi * coslambda.

(** The local [distance_sq] of both kernels (lines 132 and 150). *)
Definition distance_sq
    (longitude cosphi sinphi radius longitude_p cosphi_p sinphi_p radius_p radius_p_sq : F) : F :=
  let cospsi := cospsi longitude cosphi sinphi longitude_p cosphi_p sinphi_p in
  radius ^ 2 + radius_p_sq - 2 * radius * radius_p * cospsi.

Definition kernel_potential : Kernel :=
  fun longitude cosphi sinphi radius longitude_p cosphi_p sinphi_p radius_p radius_p_sq =>
  let distance_sq :=
    distance_sq longitude cosphi sinphi radius longitude_p cosphi_p sinphi_p radius_p radius_p_sq in
  1 / np_sqrt distance_sq.

Definition kernel_g_radial : Kernel :=
  fun longitude cosphi sinphi radius longitude_p cosphi_p sinphi_p radius_p radius_p_sq =>
  let cospsi := cospsi longitude cosphi sinphi longitude_p cosphi_p sinphi_p in
  let distance_sq :=
    distance_sq longitude cosphi sinphi radius longitude_p cosphi_p sinphi_p radius_p radius_p_sq in
  let delta_z := radius_p * cospsi - radius in
  delta_z / distance_sq ** (3 / 2).

(** A point in degrees, degrees, meters. *)
Record coordinate_triple : Type := Triple { lon : F; lat : F; rad : F }.

(** The kernel call of the accumulation loop for one observation point and
    the point mass: the arguments as lines 96-103 prepare them. *)
Definition kernel_call (kernel : Kernel) (obs src : coordinate_triple) : F :=
  kernel (np_radians (lon obs))
         (np_cos (np_radians (lat obs)))
         (np_sin (np_radians (lat obs)))
         (rad obs)
         (np_radians (lon src))
         (np_cos (np_radians (lat src)))
         (np_sin (np_radians (lat src)))
         (rad src)
         (rad src ^ 2).

(** The values of the locals [cospsi] and [distance_sq] in that call. *)
Definition computed_cospsi (obs src : coordinate_triple) : F :=
  kernel_call
    (fun longitude cosphi sinphi _ longitude_p cosphi_p sinphi_p _ _ =>
       cospsi longitude cosphi sinphi longitude_p cosphi_p sinphi_p)
    obs src.

Definition computed_distance_sq (obs src : coordinate_triple) : F :=
  kernel_call distance_sq obs src.

(** *** The formulas as the specification words them *)




End Kernels.

Arguments Kernel F : clear implicits.
Arguments coordinate_triple F : clear implicits.

(** ** Arrays and shapes *)

(** A numpy array: its shape and its elements in row-major order. *)
Record ndarray (F : Type) : Type := NdArray { shape : list nat; data : list F }.
Arguments NdArray {F} shape data.
Arguments shape {F} _.
Arguments data {F} _.

(** [a.ravel()]: the elements as a one-dimensional array. *)
Definition ravel {F : Type} (a : ndarray F) : list F := data a.

(** The number of elements of an array of a given shape. *)
Definition shape_size (shp : list nat) : nat := foldr Nat.mul 1 shp.

(** numpy's broadcasting rule for one axis: equal extents, or one of them 1. *)
Definition broadcast_dim (a b : nat) : option nat :=
  if decide (a = b) then Some a
  else if decide (a = 1) then Some b
  else if decide (b = 1) then Some a
  else None.

(** Two shapes, trailing axis first. *)
Fixpoint broadcast_rev (s t : list nat) : option (list nat) :=
  match s, t with
  | [], _ => Some t
  | _, [] => Some s
  | a :: s', b :: t' =>
      d ← broadcast_dim a b; r ← broadcast_rev s' t'; Some (d :: r)
  end.

Definition broadcast_shapes (s t : list nat) : option (list nat) :=
  reverse <$> broadcast_rev (reverse s) (reverse t).

(** The common shape of any number of shapes; [()] for none. *)
Definition broadcast_all (shapes : list (list nat)) : option (list nat) :=
  foldl (λ acc s, acc ≫= λ t, broadcast_shapes t s) (Some []) shapes.

(** ** Exceptions *)

Inductive exn : Type :=
  | ValueError (msg : string)          (* raise ValueError(msg), line 43 *)
  | ShapeMismatch                      (* the ValueError of np.broadcast *)
  | UnpackError (expected got : nat)   (* the ValueError of a tuple unpacking *)
  | ZeroDivisionError.                 (* a compiled division by zero *)

(** [needle in hay] on Python strings: [needle] occurs in [hay]. *)
Fixpoint str_in (needle hay : string) : bool :=
  if String.prefix needle hay then true
  else match hay with
       | EmptyString => false
       | String _ hay' => str_in needle hay'
       end.

(** ** The kernels as compiled (lines 118-152) *)

Section JitKernels.
Context {F : Type} `{Float64 F}.
Local Open Scope carrier_scope.

(** A compiled kernel returns a number or raises. *)
Definition JitKernel : Type := F → F → F → F → F → F → F → F → F → exn + F.

(** [x / y] in compiled code: a zero divisor raises. *)
Definition truediv (x y : F) : exn + F :=
  if is_zero y then inl ZeroDivisionError else inr (x / y).

Definition jit_kernel_potential : JitKernel :=
  fun longitude cosphi sinphi radius longitude_p cosphi_p sinphi_p radius_p radius_p_sq =>
  let distance_sq :=
    distance_sq longitude cosphi sinphi radius longitude_p cosphi_p sinphi_p radius_p radius_p_sq in
  truediv 1 (np_sqrt distance_sq).

Definition jit_kernel_g_radial : JitKernel :=
  fun longitude cosphi sinphi radius longitude_p cosphi_p sinphi_p radius_p radius_p_sq =>
  let cospsi := cospsi longitude cosphi sinphi longitude_p cosphi_p sinphi_p in
  let distance_sq :=
    distance_sq longitude cosphi sinphi radius longitude_p cosphi_p sinphi_p radius_p radius_p_sq in
  let delta_z := radius_p * cospsi - radius in
  truediv delta_z (distance_sq ** (3 / 2)).

(** The call of a compiled kernel for one observation point and one point
    mass, on the arguments the loops prepare (as [kernel_call]). *)
Definition jit_kernel_call (kernel : JitKernel) (obs src : coordinate_triple F) : exn + F :=
  kernel (np_radians (lon obs))
         (np_cos (np_radians (lat obs)))
         (np_sin (np_radians (lat obs)))
         (rad obs)
         (np_radians (lon src))
         (np_cos (np_radians (lat src)))
         (np_sin (np_radians (lat src)))
         (rad src)
         (rad src ^ 2).

(** The divisors of the two kernels in that call. *)
Definition divisor_potential (obs src : coordinate_triple F) : F :=
  np_sqrt (computed_distance_sq obs src).

Definition divisor_g_radial (obs src : coordinate_triple F) : F :=
  computed_distance_sq obs src ** (3 / 2).
End JitKernels.

Arguments JitKernel F : clear implicits.

(** ** The store and the monad of the stateful code *)

Definition loc : Type := nat.
Bind Scope nat_scope with loc.

Section Program.
Context {F : Type} `{Float64 F}.
Local Open Scope carrier_scope.

(** The constant imported from [..constants] (line 7). *)
Variable GRAVITATIONAL_CONST : F.

(** [heap] holds the buffers that are written in place, by address: those
    made by [np.zeros] and the [out] of a caller of the loop; addresses
    from [next] on are free.  [kernel_calls] is a ghost counter of the
    kernel evaluations performed so far.  [stray] is what the reads past the
    end of an array return, one value per such read, in the order of the
    reads; [stray_reads] counts them. *)
Record world : Type := World {
  heap : loc → list F;
  next : loc;
  kernel_calls : nat;
  stray : nat → F;
  stray_reads : nat;
}.

Definition M (A : Type) : Type := world → world * (exn + A).

#[export] Instance M_ret : MRet M := λ A x w, (w, inr x).
#[export] Instance M_bind : MBind M := λ A B f m w,
  match m w with
  | (w', inl e) => (w', inl e)
  | (w', inr x) => f x w'
  end.

Definition raise {A : Type} (e : exn) : M A := λ w, (w, inl e).

Definition set_buffer (out : loc) (buf : list F) (w : world) : world :=
  World (λ a, if decide (a = out) then buf else heap w a) (next w) (kernel_calls w)
        (stray w) (stray_reads w).

(** [np.zeros(n)]: a fresh zero-filled buffer. *)
Definition np_zeros (n : nat) : M loc := λ w,
  (World (λ a, if decide (a = next w) then replicate n 0 else heap w a)
         (S (next w)) (kernel_calls w) (stray w) (stray_reads w),
   inr (next w)).

(** [out.size] *)
Definition size (out : loc) : M nat := λ w, (w, inr (length (heap w out))).

(** A read outside every array: it returns the next stray value. *)
Definition stray_read : M F := λ w,
  (World (heap w) (next w) (kernel_calls w) (stray w) (S (stray_reads w)),
   inr (stray w (stray_reads w))).

(** [a[l]] in compiled code, on the elements [a] of a one-dimensional
    array: there is no bounds check, and past the end the read is a stray
    read. *)
Definition getitem (a : list F) (l : nat) : M F := λ w,
  match a !! l with
  | Some x => (w, inr x)
  | None => stray_read w
  end.

(** An array argument that compiled code indexes while it writes to the
    store: memory that no buffer of the store shares ([Own]), or a strided
    view of a buffer of the store ([View a start step]: element [l] of the
    view is element [start + step * l] of buffer [a]). *)
Inductive array_arg : Type :=
  | Own (xs : list F)
  | View (a : loc) (start step : Z).

Definition getitem_arg (r : array_arg) (l : nat) : M F :=
  match r with
  | Own xs => getitem xs l
  | View a start step => λ w,
      let i := (start + step * Z.of_nat l)%Z in
      if (0 <=? i)%Z then getitem (heap w a) (Z.to_nat i) w else stray_read w
  end.

(** [out[l]] read from and written to the store; the loop keeps [l] below
    [out.size]. *)
Definition load (out : loc) (l : nat) : M F := λ w, getitem (heap w out) l w.

Definition store (out : loc) (l : nat) (x : F) : M unit := λ w,
  (set_buffer out (<[l:=x]> (heap w out)) w, inr tt).

(** One kernel evaluation. *)
Definition call (kernel : JitKernel F) (a1 a2 a3 a4 a5 a6 a7 a8 a9 : F) : M F := λ w,
  (World (heap w) (next w) (S (kernel_calls w)) (stray w) (stray_reads w),
   kernel a1 a2 a3 a4 a5 a6 a7 a8 a9).

(** [result *= c], element by element, in place. *)
Definition imul (result : loc) (c : F) : M unit := λ w,
  (set_buffer result ((λ x, x * c) <$> heap w result) w, inr tt).

(** [a, b, c = xs] *)
Definition unpack3 {A : Type} (xs : list A) : M (A * A * A) :=
  match xs with
  | [a; b; c] => mret (a, b, c)
  | _ => raise (UnpackError 3 (length xs))
  end.

Fixpoint for_each (ls : list nat) (body : nat → M unit) : M unit :=
  match ls with
  | [] => mret tt
  | l :: ls' => body l;; for_each ls' body
  end.

(** [for l in range(n): body] *)
Definition for_range (n : nat) (body : nat → M unit) : M unit := for_each (seq 0 n) body.

(** ** The accumulation loop (lines 93-115) *)

(** The body of the loop (lines 112-115): [out[l] += kernel(...)]. *)
Definition jit_point_mass_gravity_body
    (longitude_radians cosphi sinphi : list F) (radius : array_arg)
    (longitude_p cosphi_p sinphi_p radius_p radius_p_sq : F)
    (kernel : JitKernel F) (out : loc) (l : nat) : M unit :=
  old ← load out l;
  a1 ← getitem longitude_radians l;
  a2 ← getitem cosphi l;
  a3 ← getitem sinphi l;
  a4 ← getitem_arg radius l;
  k ← call kernel a1 a2 a3 a4 longitude_p cosphi_p sinphi_p radius_p radius_p_sq;
  store out l (old + k).

(** [longitude] and [latitude] are read once, by [np.radians], before the
    loop starts, and [point] by the unpacking: they are the elements found
    then.  [radius] is indexed inside the loop, between the writes to [out]. *)
Definition jit_point_mass_gravity
    (longitude latitude : list F) (radius : array_arg) (point : list F)
    (kernel : JitKernel F) (out : loc) : M unit :=
  '(longitude_p, latitude_p, radius_p) ← unpack3 point;
  let longitude_p := np_radians longitude_p in
  let latitude_p := np_radians latitude_p in
  let cosphi_p := np_cos latitude_p in
  let sinphi_p := np_sin latitude_p in
  let radius_p_sq := radius_p ^ 2 in
  let cosphi := np_cos <$> (np_radians <$> latitude) in
  let sinphi := np_sin <$> (np_radians <$> latitude) in
  let longitude_radians := np_radians <$> longitude in
  n ← size out;
  for_range n
    (jit_point_mass_gravity_body longitude_radians cosphi sinphi radius
       longitude_p cosphi_p sinphi_p radius_p radius_p_sq kernel out).

(** ** The entry point (lines 10-53) *)

Definition kernels : gmap string (JitKernel F) :=
  <["potential" := jit_kernel_potential]> (<["g_radial" := jit_kernel_g_radial]> ∅).

(** [np.broadcast] of the arrays: the common shape, [cast.shape];
    [cast.size] is [shape_size] of it. *)
Definition np_broadcast (arrays : list (ndarray F)) : M (list nat) :=
  match broadcast_all (shape <$> arrays) with
  | Some shp => mret shp
  | None => raise ShapeMismatch
  end.

(** [result.reshape(shp)]: the buffer seen with shape [shp]. *)
Definition reshape (result : loc) (shp : list nat) : M (ndarray F) := λ w,
  (w, inr (NdArray shp (heap w result))).

(** The result is computed in the default [dtype], the carrier [F].  The
    raveled coordinate arrays are memory of the caller, which the fresh
    [result] does not share.  The dictionary is looked up once:
    [field not in kernels] and [kernels[field]] read the same constant
    dictionary.  In line 51 the right operand [("g_radial")] is a string,
    not a tuple, so [in] is the substring test [str_in]. *)
Definition point_mass_gravity
    (coordinates : list (ndarray F)) (point : list F) (mass : F) (field : string)
    : M (ndarray F) :=
  match kernels !! field with
  | None => raise (ValueError ("Gravity field " +:+ field +:+ " not recognized"))
  | Some kernel =>
      cast ← np_broadcast (firstn 3 coordinates);
      result ← np_zeros (shape_size cast);
      '(longitude, latitude, radius) ← unpack3 (ravel <$> firstn 3 coordinates);
      jit_point_mass_gravity longitude latitude (Own radius) point kernel result;;
      imul result (GRAVITATIONAL_CONST * mass);;
      (if str_in field "g_radial" then imul result 1e5 else mret tt);;
      reshape result cast
  end.

(** ** Vocabulary of the statements *)

(** Observation point [l] of the flattened coordinate arrays. *)
Definition observation (longitude latitude radius : list F) (l : nat)
    : option (coordinate_triple F) :=
  lo ← longitude !! l; la ← latitude !! l; r ← radius !! l; Some (Triple lo la r).

(** The factors applied after the loop (lines 49-52). *)
Definition post_factors (mass : F) (field : string) (x : F) : F :=
  if str_in field "g_radial" then x * (GRAVITATIONAL_CONST * mass) * 1e5
  else x * (GRAVITATIONAL_CONST * mass).

(** The kernel returns at each of the first [n] observation points. *)
Definition kernel_returns_at
    (kernel : JitKernel F) (longitude latitude radius : list F) (src : coordinate_triple F)
    (n : nat) : Prop :=
  ∀ l o, (l < n)%nat → observation longitude latitude radius l = Some o →
         ∃ k, jit_kernel_call kernel o src = inr k.

(** The only exception of the kernel is that of a division by zero. *)
Definition raises_only_zero_division (kernel : JitKernel F) : Prop :=
  ∀ a1 a2 a3 a4 a5 a6 a7 a8 a9 e,
    kernel a1 a2 a3 a4 a5 a6 a7 a8 a9 = inl e → e = ZeroDivisionError.

Local Close Scope carrier_scope.

(** What the loop has done to the store [w0] when it is about to run
    iteration [l]. *)
Definition accumulated
    (longitude latitude radius : list F) (src : coordinate_triple F) (kernel : JitKernel F)
    (out : loc) (w0 : world) (l : nat) (w : world) : Prop :=
  next w = next w0
  ∧ kernel_calls w = kernel_calls w0 + l
  ∧ stray_reads w = stray_reads w0
  ∧ (∀ a, a ≠ out → heap w a = heap w0 a)
  ∧ length (heap w out) = length (heap w0 out)
  ∧ (∀ i, l ≤ i → heap w out !! i = heap w0 out !! i)
  ∧ (∀ i x o k, i < l → heap w0 out !! i = Some x →
       observation longitude latitude radius i = Some o →
       jit_kernel_call kernel o src = inr k →
       heap w out !! i = Some (x + k)%fl).
End Program.

Arguments world F : clear implicits.
Arguments M F A : clear implicits.
Arguments array_arg F : clear implicits.

(** ** Many point masses, one computation point (lines 56-89) *)

Section PointMasses.
Context {F : Type} `{Float64 F}.
Local Open Scope carrier_scope.

Fixpoint for_each_acc {A : Type} (ls : list nat) (body : nat → A → M F A) (acc : A) : M F A :=
  match ls with
  | [] => mret acc
  | l :: ls' => acc' ← body l acc; for_each_acc ls' body acc'
  end.

(** [out = init; for l in range(n): out = body(l, out)]; the value is the
    final [out]. *)
Definition for_range_acc {A : Type} (n : nat) (init : A) (body : nat → A → M F A) : M F A :=
  for_each_acc (seq 0 n) body init.

(** The body of the loop (lines 80-88): the new value of the local [out].
    In [out += masses[l] * kernel(...)] the mass is read first, then the
    arguments of the kernel from left to right. *)
Definition jit_point_masses_gravity_body
    (longitude cosphi sinphi radius : F)
    (longitude_p cosphi_p sinphi_p radius_p radius_p_sq masses : list F)
    (kernel : JitKernel F) (l : nat) (out : F) : M F F :=
  m ← getitem masses l;
  a5 ← getitem longitude_p l;
  a6 ← getitem cosphi_p l;
  a7 ← getitem sinphi_p l;
  a8 ← getitem radius_p l;
  a9 ← getitem radius_p_sq l;
  k ← call kernel longitude cosphi sinphi radius a5 a6 a7 a8 a9;
  mret (out + m * k).

(** The local [out] is a number; the arrays are only read. *)
Definition jit_point_masses_gravity
    (coordinates longitude_p latitude_p radius_p masses : list F) (kernel : JitKernel F)
    : M F F :=
  '(longitude, latitude, radius) ← unpack3 coordinates;
  let longitude := np_radians longitude in
  let latitude := np_radians latitude in
  let cosphi := np_cos latitude in
  let sinphi := np_sin latitude in
  let longitude_p := np_radians <$> longitude_p in
  let latitude_p := np_radians <$> latitude_p in
  let cosphi_p := np_cos <$> latitude_p in
  let sinphi_p := np_sin <$> latitude_p in
  let radius_p_sq := (λ r, r ^ 2) <$> radius_p in
  for_range_acc (length longitude_p) 0
    (jit_point_masses_gravity_body longitude cosphi sinphi radius
       longitude_p cosphi_p sinphi_p radius_p radius_p_sq masses kernel).

(** *** Vocabulary *)

Local Abbreviation source := (coordinate_triple F * F)%type.

(** The mass-weighted values of [value] added up in the order of the loop. *)
Definition weighted_sum (value : Kernel F) (obs : coordinate_triple F) (srcs : list source)
    : F :=
  foldl (λ out s, out + s.2 * kernel_call value obs s.1) 0 srcs.
End PointMasses.

(** A point mass: where it is, and its mass in kg. *)
Abbreviation source F := (coordinate_triple F * F)%type.

(** ** IEEE-754 double precision *)

(** What the program takes from the C library.  For the arguments met in the
    examples the C standard (Annex F) fixes the value: cos(0) = 1,
    sin(0) = 0, pow(0, 1.5) = 0 and pow(1, 1.5) = 1. *)
Class libm : Type := Libm {
  libm_cos : float → float;
  libm_sin : float → float;
  libm_pow : float → float → float;
  libm_cos_0 : libm_cos 0%float = 1%float;
  libm_sin_0 : libm_sin 0%float = 0%float;
  libm_pow_0 : libm_pow 0%float 1.5%float = 0%float;
  libm_pow_1 : libm_pow 1%float 1.5%float = 1%float;
}.

(** An [int] as a float. *)
Definition float_of_Z (z : Z) : float :=
  match z with
  | Z0 => 0%float
  | Zpos _ => PrimFloat.of_uint63 (Uint63.of_Z z)
  | Zneg p => PrimFloat.opp (PrimFloat.of_uint63 (Uint63.of_Z (Zpos p)))
  end.

(** [x ** n] for a literal [n]: repeated multiplication. *)
Fixpoint float_pow_nat (x : float) (n : nat) : float :=
  match n with
  | O => 1%float
  | S O => x
  | S m => PrimFloat.mul x (float_pow_nat x m)
  end.

(** pi / 180 *)
Definition deg2rad : float := 0x1.1df46a2529d39p-6%float.

(** The carrier of the program: binary64 with round to nearest even. *)
#[export] Instance binary64 {L : libm} : Float64 float := {|
  of_Z := float_of_Z;
  fadd := PrimFloat.add;
  fsub := PrimFloat.sub;
  fmul := PrimFloat.mul;
  fdiv := PrimFloat.div;
  fpow_int := float_pow_nat;
  fpow := libm_pow;
  np_sqrt := PrimFloat.sqrt;
  np_cos := libm_cos;
  np_sin := libm_sin;
  np_radians := λ x, PrimFloat.mul x deg2rad;
  is_zero := λ x, PrimFloat.eqb x 0%float;
|}.

(** A C library known only where Annex F fixes it; NaN stands for every
    value it does not give. *)
Definition annex_f : libm := {|
  libm_cos := λ x, if PrimFloat.eqb x 0%float then 1%float else nan;
  libm_sin := λ x, if PrimFloat.eqb x 0%float then x else nan;
  libm_pow := λ x y,
    if PrimFloat.eqb y 1.5%float then
      if PrimFloat.eqb x 0%float then 0%float
      else if PrimFloat.eqb x 1%float then 1%float else nan
    else nan;
  libm_cos_0 := eq_refl;
  libm_sin_0 := eq_refl;
  libm_pow_0 := eq_refl;
  libm_pow_1 := eq_refl;
|}.

(** ** Stores and inputs of the examples *)

(** Nothing allocated yet; the memory past the arrays holds NaN. *)
Definition empty_world : world float := World (λ _, []) 0 0 (λ _, nan) 0.

(** A store whose buffer at address 0 is partially filled. *)
Definition filled_world : world float :=
  World (λ a, if decide (a = 0) then [5%float; 7%float] else []) 1 0 (λ _, nan) 0.

(** A one-dimensional array. *)
Definition array {F : Type} (xs : list F) : ndarray F := NdArray [length xs] xs.

(** A 10×20 grid with the same value everywhere. *)
Definition grid_10_20 (x : float) : ndarray float := NdArray [10; 20] (replicate 200 x).

(** Two observation points on the axis of the point mass of the examples,
    which is at (0, 0, 1): one at radius 2 and one at the origin. *)
Definition two_points : list (ndarray float) :=
  [array [0; 0]; array [0; 0]; array [2; 0]]%float.

(** An observation point where the point mass of the examples is. *)
Definition collocated : list (ndarray float) :=
  [array [0]; array [0]; array [1]]%float.

(** An observation point three meters above the point mass of the
    examples. *)
Definition above : list (ndarray float) :=
  [array [0]; array [0]; array [4]]%float.

(** ** Facts about the program, for every carrier *)

Section ProgramFacts.
Context {F : Type} `{Float64 F}.
Variable GRAVITATIONAL_CONST : F.

Lemma kernels_potential : kernels (F:=F) !! "potential" = Some jit_kernel_potential.
Proof. reflexivity. Qed.

Lemma kernels_g_radial : kernels (F:=F) !! "g_radial" = Some jit_kernel_g_radial.
Proof. reflexivity. Qed.

Lemma kernels_None (field : string) :
  field ≠ "potential" → field ≠ "g_radial" → kernels (F:=F) !! field = None.
Proof.
  intros H1 H2. unfold kernels.
  rewrite lookup_insert_ne by done. rewrite lookup_insert_ne by done.
  apply lookup_empty.
Qed.

Lemma kernels_Some (field : string) (kernel : JitKernel F) :
  kernels !! field = Some kernel →
  (field = "potential" ∧ kernel = jit_kernel_potential)
  ∨ (field = "g_radial" ∧ kernel = jit_kernel_g_radial).
Proof.
  unfold kernels. intros Hk.
  destruct (decide (field = "potential")) as [->|H1].
  { rewrite lookup_insert_eq in Hk. left. split; congruence. }
  rewrite lookup_insert_ne in Hk by done.
  destruct (decide (field = "g_radial")) as [->|H2].
  { rewrite lookup_insert_eq in Hk. right. split; congruence. }
  rewrite lookup_insert_ne in Hk by done. by rewrite lookup_empty in Hk.
Qed.

(** *** The compiled kernels *)

Lemma truediv_exn (x y : F) (e : exn) : truediv x y = inl e → e = ZeroDivisionError.
Proof. unfold truediv. destruct (is_zero y); congruence. Qed.

(** A compiled kernel raises when its divisor is zero and returns the value
    of its expression otherwise. *)
Lemma jit_kernel_potential_call (obs src : coordinate_triple F) :
  jit_kernel_call jit_kernel_potential obs src
  = if is_zero (divisor_potential obs src) then inl ZeroDivisionError
    else inr (kernel_call kernel_potential obs src).
Proof. reflexivity. Qed.

Lemma jit_kernel_g_radial_call (obs src : coordinate_triple F) :
  jit_kernel_call jit_kernel_g_radial obs src
  = if is_zero (divisor_g_radial obs src) then inl ZeroDivisionError
    else inr (kernel_call kernel_g_radial obs src).
Proof. reflexivity. Qed.

Lemma jit_kernel_potential_raises : raises_only_zero_division (F:=F) jit_kernel_potential.
Proof. intros a1 a2 a3 a4 a5 a6 a7 a8 a9 e. apply truediv_exn. Qed.

Lemma jit_kernel_g_radial_raises : raises_only_zero_division (F:=F) jit_kernel_g_radial.
Proof. intros a1 a2 a3 a4 a5 a6 a7 a8 a9 e. apply truediv_exn. Qed.

Lemma kernels_raise (field : string) (kernel : JitKernel F) :
  kernels !! field = Some kernel → raises_only_zero_division kernel.
Proof.
  intros [[_ ->] | [_ ->]]%kernels_Some;
    [apply jit_kernel_potential_raises | apply jit_kernel_g_radial_raises].
Qed.

(** *** The monad *)

Lemma bind_inr {A B : Type} (m : M F A) (f : A → M F B) (w w' : world F) (x : A) :
  m w = (w', inr x) → (m ≫= f) w = f x w'.
Proof. intros Hm. unfold mbind, M_bind. by rewrite Hm. Qed.

Lemma bind_inl {A B : Type} (m : M F A) (f : A → M F B) (w w' : world F) (e : exn) :
  m w = (w', inl e) → (m ≫= f) w = (w', inl e).
Proof. intros Hm. unfold mbind, M_bind. by rewrite Hm. Qed.

(** *** Loops *)

(** A loop rule for [for_each]: an invariant kept by every iteration, each
    of which returns normally, holds at the end, and the loop returns
    normally. *)
Lemma for_each_invariant (I : nat → world F → Prop) (body : nat → M F unit) (n : nat) :
  ∀ (s : nat) (w : world F),
    I s w →
    (∀ l w1, s ≤ l < s + n → I l w1 → ∃ w2, body l w1 = (w2, inr tt) ∧ I (S l) w2) →
    ∃ w', for_each (seq s n) body w = (w', inr tt) ∧ I (s + n) w'.
Proof.
  induction n as [|n IH]; intros s w Hs Hbody; simpl.
  - exists w. rewrite Nat.add_0_r. done.
  - destruct (Hbody s w) as (w2 & Hrun & HI); [lia | done |].
    destruct (IH (S s) w2) as (w' & Hrun' & HI'); [done | |].
    { intros l w1 Hl. apply Hbody. lia. }
    exists w'. split; [|by replace (s + S n) with (S s + n) by lia].
    unfold mbind, M_bind. by rewrite Hrun.
Qed.

(** A loop whose first iterations return and whose next one raises. *)
Lemma for_each_raise (body : nat → M F unit) (ls1 ls2 : list nat) (j : nat)
    (w w1 w2 : world F) (e : exn) :
  for_each ls1 body w = (w1, inr tt) →
  body j w1 = (w2, inl e) →
  for_each (ls1 ++ j :: ls2) body w = (w2, inl e).
Proof.
  revert w. induction ls1 as [|i ls1 IH]; intros w Hrun Hj.
  - injection Hrun as ->. cbn [app for_each]. by apply bind_inl.
  - cbn [app for_each] in *. unfold mbind, M_bind in *.
    destruct (body i w) as [wi [ei|[]]]; [discriminate|]. by apply IH.
Qed.

(** A loop rule for loops that may raise: what every iteration keeps,
    whatever its outcome, holds when the loop is left, and the loop raises
    only what an iteration raises. *)
Lemma for_each_outcome (I : world F → Prop) (P : exn → Prop)
    (body : nat → M F unit) (ls : list nat) :
  (∀ l w w' r, I w → body l w = (w', r) → I w' ∧ ∀ e, r = inl e → P e) →
  ∀ w w' r, I w → for_each ls body w = (w', r) → I w' ∧ ∀ e, r = inl e → P e.
Proof.
  intros Hbody. induction ls as [|i ls IH]; intros w w' r Hw Hrun.
  - injection Hrun as <- <-. split; [done | discriminate].
  - cbn [for_each] in Hrun. unfold mbind, M_bind in Hrun.
    destruct (body i w) as [wi ri] eqn:Hi.
    destruct (Hbody i w wi ri Hw Hi) as [Hwi Hri].
    destruct ri as [ei|[]].
    + injection Hrun as <- <-. split; [done|]. intros e [= <-]. by apply Hri.
    + by apply (IH wi).
Qed.

(** *** Reads *)

Lemma getitem_Some (a : list F) (l : nat) (x : F) (w : world F) :
  a !! l = Some x → getitem a l w = (w, inr x).
Proof. intros Ha. unfold getitem. by rewrite Ha. Qed.

(** A read returns, and changes no buffer. *)
Lemma getitem_reads (a : list F) (l : nat) (w : world F) :
  ∃ w1 x, getitem a l w = (w1, inr x)
          ∧ heap w1 = heap w ∧ next w1 = next w ∧ kernel_calls w1 = kernel_calls w.
Proof.
  unfold getitem, stray_read. destruct (a !! l); eexists _, _; (split; [reflexivity|done]).
Qed.

Lemma getitem_arg_reads (r : array_arg F) (l : nat) (w : world F) :
  ∃ w1 x, getitem_arg r l w = (w1, inr x)
          ∧ heap w1 = heap w ∧ next w1 = next w ∧ kernel_calls w1 = kernel_calls w.
Proof.
  destruct r as [xs | a start step]; cbn [getitem_arg]; [apply getitem_reads|].
  destruct (0 <=? start + step * Z.of_nat l)%Z; [apply getitem_reads|].
  unfold stray_read. eexists _, _. split; [reflexivity|done].
Qed.

Lemma observation_inv (longitude latitude radius : list F) (l : nat) (o : coordinate_triple F) :
  observation longitude latitude radius l = Some o →
  longitude !! l = Some (lon o) ∧ latitude !! l = Some (lat o) ∧ radius !! l = Some (rad o).
Proof.
  unfold observation. intros Ho.
  destruct (longitude !! l) as [lo|]; [|discriminate].
  destruct (latitude !! l) as [la|]; [|discriminate].
  destruct (radius !! l) as [r|]; [|discriminate].
  cbn in Ho. by injection Ho as <-.
Qed.

Lemma observation_Some (longitude latitude radius : list F) (l : nat) :
  l < length longitude → l < length latitude → l < length radius →
  ∃ o, observation longitude latitude radius l = Some o.
Proof.
  intros H1 H2 H3.
  destruct (lookup_lt_is_Some_2 longitude l H1) as [lo Hlo].
  destruct (lookup_lt_is_Some_2 latitude l H2) as [la Hla].
  destruct (lookup_lt_is_Some_2 radius l H3) as [r Hr].
  exists (Triple lo la r). unfold observation. rewrite Hlo, Hla, Hr. done.
Qed.

(** *** The accumulation loop *)

(** One iteration at an index the arrays hold: the kernel is evaluated at
    the observation point; if it returns, its value is added to the
    element; if it raises, the buffer is left as it is. *)
Lemma jit_point_mass_gravity_body_run
    (longitude latitude radius : list F) (longitude_p latitude_p radius_p : F)
    (kernel : JitKernel F) (out : loc) (l : nat) (o : coordinate_triple F) (x : F)
    (w : world F) :
  observation longitude latitude radius l = Some o →
  heap w out !! l = Some x →
  jit_point_mass_gravity_body (np_radians <$> longitude)
    (np_cos <$> (np_radians <$> latitude)) (np_sin <$> (np_radians <$> latitude))
    (Own radius) (np_radians longitude_p) (np_cos (np_radians latitude_p))
    (np_sin (np_radians latitude_p)) radius_p (radius_p ^ 2)%fl kernel out l w
  = let w1 := World (heap w) (next w) (S (kernel_calls w)) (stray w) (stray_reads w) in
    match jit_kernel_call kernel o (Triple longitude_p latitude_p radius_p) with
    | inl e => (w1, inl e)
    | inr k => (set_buffer out (<[l := (x + k)%fl]> (heap w out)) w1, inr tt)
    end.
Proof.
  intros (Hlo & Hla & Hr)%observation_inv Hx.
  unfold jit_point_mass_gravity_body.
  rewrite (bind_inr _ _ w w x) by by apply getitem_Some.
  rewrite (bind_inr _ _ w w (np_radians (lon o)))
    by by apply getitem_Some; rewrite list_lookup_fmap, Hlo.
  rewrite (bind_inr _ _ w w (np_cos (np_radians (lat o))))
    by by apply getitem_Some; rewrite !list_lookup_fmap, Hla.
  rewrite (bind_inr _ _ w w (np_sin (np_radians (lat o))))
    by by apply getitem_Some; rewrite !list_lookup_fmap, Hla.
  rewrite (bind_inr _ _ w w (rad o)) by by apply getitem_Some.
  unfold mbind, M_bind. cbn [call]. unfold jit_kernel_call. cbn [lon lat rad].
  by destruct (kernel _ _ _ _ _ _ _ _ _).
Qed.

(** The first [j] iterations, when the arrays hold their observation points
    and the kernel returns at each. *)
Lemma jit_point_mass_gravity_prefix
    (longitude latitude radius : list F) (longitude_p latitude_p radius_p : F)
    (kernel : JitKernel F) (out : loc) (j : nat) (w : world F) :
  j ≤ length (heap w out) →
  j ≤ length longitude → j ≤ length latitude → j ≤ length radius →
  kernel_returns_at kernel longitude latitude radius
    (Triple longitude_p latitude_p radius_p) j →
  ∃ w', for_each (seq 0 j)
          (jit_point_mass_gravity_body (np_radians <$> longitude)
             (np_cos <$> (np_radians <$> latitude)) (np_sin <$> (np_radians <$> latitude))
             (Own radius) (np_radians longitude_p) (np_cos (np_radians latitude_p))
             (np_sin (np_radians latitude_p)) radius_p (radius_p ^ 2)%fl kernel out) w
        = (w', inr tt)
        ∧ accumulated longitude latitude radius (Triple longitude_p latitude_p radius_p)
            kernel out w j w'.
Proof.
  intros Hout Hlon Hlat Hrad Hret.
  apply (for_each_invariant
           (accumulated longitude latitude radius (Triple longitude_p latitude_p radius_p)
              kernel out w) _ j 0 w).
  - unfold accumulated. repeat split; try done; try lia. all: intros; lia.
  - intros l w1 Hl (Hnext & Hcalls & Hstray & Hframe & Hlen & Hrest & Hdone).
    destruct (observation_Some longitude latitude radius l) as [o Hobs]; [lia..|].
    destruct (Hret l o) as [k Hk]; [lia | done |].
    destruct (lookup_lt_is_Some_2 (heap w out) l) as [x Hx]; [lia|].
    assert (heap w1 out !! l = Some x) as Hx1 by (rewrite Hrest; [done | lia]).
    rewrite (jit_point_mass_gravity_body_run _ _ _ _ _ _ _ _ _ o x) by done.
    cbn zeta. rewrite Hk.
    eexists. split; [reflexivity|].
    unfold accumulated, set_buffer. cbn [heap next kernel_calls stray_reads].
    rewrite decide_True by done.
    split; [done|]. split; [lia|]. split; [done|]. split.
    { intros a Ha. rewrite decide_False by done. by apply Hframe. }
    split; [by rewrite length_insert|]. split.
    { intros i Hi. rewrite list_lookup_insert_ne by lia. apply Hrest. lia. }
    intros i y o' k' Hi Hy Ho Hk'.
    destruct (decide (i = l)) as [->|Hne].
    + rewrite list_lookup_insert_eq by lia.
      rewrite Hx in Hy. rewrite Hobs in Ho. simplify_eq. congruence.
    + rewrite list_lookup_insert_ne by done. eapply Hdone; [lia|done..].
Qed.

Lemma jit_point_mass_gravity_run
    (longitude latitude radius : list F) (longitude_p latitude_p radius_p : F)
    (kernel : JitKernel F) (out : loc) (w : world F) :
  length (heap w out) ≤ length longitude →
  length (heap w out) ≤ length latitude →
  length (heap w out) ≤ length radius →
  kernel_returns_at kernel longitude latitude radius
    (Triple longitude_p latitude_p radius_p) (length (heap w out)) →
  ∃ w', jit_point_mass_gravity longitude latitude (Own radius)
          [longitude_p; latitude_p; radius_p] kernel out w = (w', inr tt)
        ∧ accumulated longitude latitude radius (Triple longitude_p latitude_p radius_p)
            kernel out w (length (heap w out)) w'.
Proof.
  intros Hlon Hlat Hrad Hret.
  unfold jit_point_mass_gravity. cbn [unpack3]. unfold mbind at 1, M_bind at 1. cbn [mret M_ret].
  unfold mbind at 1, M_bind at 1. cbn [size]. unfold for_range.
  by apply jit_point_mass_gravity_prefix.
Qed.

(** The loop stopped by the kernel at index [j]. *)
Lemma jit_point_mass_gravity_stops
    (longitude latitude radius : list F) (longitude_p latitude_p radius_p : F)
    (kernel : JitKernel F) (out : loc) (j : nat) (oj : coordinate_triple F) (e : exn)
    (w : world F) :
  j < length (heap w out) →
  j ≤ length longitude → j ≤ length latitude → j ≤ length radius →
  kernel_returns_at kernel longitude latitude radius
    (Triple longitude_p latitude_p radius_p) j →
  observation longitude latitude radius j = Some oj →
  jit_kernel_call kernel oj (Triple longitude_p latitude_p radius_p) = inl e →
  ∃ w', jit_point_mass_gravity longitude latitude (Own radius)
          [longitude_p; latitude_p; radius_p] kernel out w = (w', inl e)
        ∧ next w' = next w
        ∧ kernel_calls w' = kernel_calls w + S j
        ∧ (∀ a, a ≠ out → heap w' a = heap w a)
        ∧ length (heap w' out) = length (heap w out)
        ∧ (∀ i, j ≤ i → heap w' out !! i = heap w out !! i)
        ∧ (∀ i x o k, i < j → heap w out !! i = Some x →
             observation longitude latitude radius i = Some o →
             jit_kernel_call kernel o (Triple longitude_p latitude_p radius_p) = inr k →
             heap w' out !! i = Some (x + k)%fl).
Proof.
  intros Hj Hlon Hlat Hrad Hret Hoj He.
  destruct (jit_point_mass_gravity_prefix longitude latitude radius
              longitude_p latitude_p radius_p kernel out j w)
    as (w1 & Hrun & Hnext & Hcalls & Hstray & Hframe & Hlen & Hrest & Hdone); [lia | done..|].
  destruct (lookup_lt_is_Some_2 (heap w out) j) as [x Hx]; [lia|].
  assert (heap w1 out !! j = Some x) as Hx1 by (rewrite Hrest; [done | lia]).
  pose proof (jit_point_mass_gravity_body_run longitude latitude radius
                longitude_p latitude_p radius_p kernel out j oj x w1 Hoj Hx1) as Hbody.
  cbn zeta in Hbody. rewrite He in Hbody.
  eexists. split.
  - unfold jit_point_mass_gravity. cbn [unpack3].
    unfold mbind at 1, M_bind at 1. cbn [mret M_ret].
    unfold mbind at 1, M_bind at 1. cbn [size]. unfold for_range.
    replace (seq 0 (length (heap w out)))
      with (seq 0 j ++ j :: seq (S j) (length (heap w out) - S j)).
    + by eapply for_each_raise.
    + change (j :: seq (S j) (length (heap w out) - S j))
        with (seq (0 + j) (S (length (heap w out) - S j))).
      rewrite <-seq_app. f_equal. lia.
  - cbn [heap next kernel_calls]. repeat split; try done. lia.
Qed.

(** Whatever the arrays hold, the loop returns or raises
    [ZeroDivisionError]; either way it has allocated nothing, has written
    to no other buffer, and the buffer has kept its length. *)
Lemma jit_point_mass_gravity_outcome
    (longitude latitude : list F) (radius : array_arg F) (longitude_p latitude_p radius_p : F)
    (kernel : JitKernel F) (out : loc) (w w' : world F) (r : exn + unit) :
  raises_only_zero_division kernel →
  jit_point_mass_gravity longitude latitude radius
    [longitude_p; latitude_p; radius_p] kernel out w = (w', r) →
  (next w' = next w
   ∧ (∀ a, a ≠ out → heap w' a = heap w a)
   ∧ length (heap w' out) = length (heap w out))
  ∧ ∀ e, r = inl e → e = ZeroDivisionError.
Proof.
  intros Hkernel.
  unfold jit_point_mass_gravity. cbn [unpack3]. unfold mbind at 1, M_bind at 1. cbn [mret M_ret].
  unfold mbind at 1, M_bind at 1. cbn [size]. unfold for_range.
  apply (for_each_outcome
           (λ w1, next w1 = next w ∧ (∀ a, a ≠ out → heap w1 a = heap w a)
                  ∧ length (heap w1 out) = length (heap w out))
           (λ e, e = ZeroDivisionError)); [|done].
  clear w'. intros l w0 w' r' (Hnext & Hframe & Hlen) Hbody.
  unfold jit_point_mass_gravity_body in Hbody.
  destruct (getitem_reads (heap w0 out) l w0) as (w1 & old & E & Hh1 & Hn1 & _).
  rewrite (bind_inr (load out l) _ w0 w1 old) in Hbody by exact E. clear E.
  destruct (getitem_reads (np_radians <$> longitude) l w1) as (w2 & a1 & E & Hh2 & Hn2 & _).
  rewrite (bind_inr _ _ w1 w2 a1) in Hbody by done. clear E.
  destruct (getitem_reads (np_cos <$> (np_radians <$> latitude)) l w2)
    as (w3 & a2 & E & Hh3 & Hn3 & _).
  rewrite (bind_inr _ _ w2 w3 a2) in Hbody by done. clear E.
  destruct (getitem_reads (np_sin <$> (np_radians <$> latitude)) l w3)
    as (w4 & a3 & E & Hh4 & Hn4 & _).
  rewrite (bind_inr _ _ w3 w4 a3) in Hbody by done. clear E.
  destruct (getitem_arg_reads radius l w4) as (w5 & a4 & E & Hh5 & Hn5 & _).
  rewrite (bind_inr _ _ w4 w5 a4) in Hbody by done. clear E.
  assert (heap w5 = heap w0) as Hh by congruence.
  assert (next w5 = next w0) as Hn by congruence.
  unfold mbind, M_bind in Hbody. cbn [call] in Hbody.
  destruct (kernel _ _ _ _ _ _ _ _ _) as [e|k] eqn:Hk.
  - injection Hbody as <- <-. cbn [heap next]. rewrite Hh, Hn.
    split; [done|]. intros e' [= <-]. by eapply Hkernel.
  - unfold store, set_buffer in Hbody. cbn [heap next kernel_calls] in Hbody.
    injection Hbody as <- <-. cbn [heap next]. rewrite Hh, Hn.
    split; [|discriminate]. split; [done|]. split.
    + intros a Ha. rewrite decide_False by done. by apply Hframe.
    + rewrite decide_True by done. by rewrite length_insert.
Qed.


(** *** The entry point *)

Lemma firstn_3_cons (coordinates : list (ndarray F)) (clon clat crad : ndarray F) :
  firstn 3 coordinates = [clon; clat; crad] →
  coordinates = clon :: clat :: crad :: drop 3 coordinates.
Proof.
  destruct coordinates as [|a [|b [|c rest]]]; try discriminate.
  cbn. by intros [= -> -> ->].
Qed.

Lemma length_3 {A : Type} (xs : list A) : length xs = 3 → ∃ a b c, xs = [a; b; c].
Proof. destruct xs as [|a [|b [|c [|? ?]]]]; try discriminate. eauto. Qed.

(** The call up to the loop: the store in which the loop starts. *)
Lemma point_mass_gravity_unfold
    (clon clat crad : ndarray F) (extra : list (ndarray F)) (point : list F) (mass : F)
    (field : string) (kernel : JitKernel F) (shp : list nat) (w : world F) :
  kernels !! field = Some kernel →
  broadcast_all [shape clon; shape clat; shape crad] = Some shp →
  point_mass_gravity GRAVITATIONAL_CONST (clon :: clat :: crad :: extra) point mass field w
  = (jit_point_mass_gravity (data clon) (data clat) (Own (data crad)) point kernel (next w);;
     imul (next w) (GRAVITATIONAL_CONST * mass)%fl;;
     (if str_in field "g_radial" then imul (next w) 1e5%fl else mret tt);;
     reshape (next w) shp)
      (World (λ a, if decide (a = next w) then replicate (shape_size shp) 0%fl else heap w a)
             (S (next w)) (kernel_calls w) (stray w) (stray_reads w)).
Proof.
  intros Hk Hb. unfold point_mass_gravity. rewrite Hk.
  change (firstn 3 (clon :: clat :: crad :: extra)) with [clon; clat; crad].
  unfold np_broadcast. cbn [fmap list_fmap ravel]. rewrite Hb.
  unfold mbind at 1, M_bind at 1. cbn [mret M_ret].
  unfold mbind at 1, M_bind at 1. cbn [np_zeros].
  unfold mbind at 1, M_bind at 1. cbn [unpack3 mret M_ret]. done.
Qed.

(** What follows a loop that has returned: the factors and the shape. *)
Lemma point_mass_gravity_finish (result : loc) (mass : F) (field : string) (shp : list nat)
    (w : world F) :
  ∃ w', (imul result (GRAVITATIONAL_CONST * mass)%fl;;
         (if str_in field "g_radial" then imul result 1e5%fl else mret tt);;
         reshape result shp) w
        = (w', inr (NdArray shp (post_factors GRAVITATIONAL_CONST mass field <$> heap w result)))
        ∧ next w' = next w
        ∧ kernel_calls w' = kernel_calls w
        ∧ (∀ a, a ≠ result → heap w' a = heap w a).
Proof.
  unfold mbind at 1, M_bind at 1. cbn [imul].
  unfold post_factors.
  destruct (str_in field "g_radial").
  - unfold mbind, M_bind. cbn [imul]. unfold reshape.
    unfold set_buffer. simpl heap. simpl next. simpl kernel_calls. simpl stray.
    simpl stray_reads.
    eexists. split.
    { rewrite !decide_True by done. rewrite <-list_fmap_compose. unfold compose. reflexivity. }
    cbn [heap next kernel_calls]. repeat split.
    intros a Ha. by rewrite !decide_False by done.
  - unfold mbind, M_bind. cbn [mret M_ret]. unfold reshape.
    unfold set_buffer. simpl heap. simpl next. simpl kernel_calls. simpl stray.
    simpl stray_reads.
    eexists. split.
    { rewrite !decide_True by done. reflexivity. }
    cbn [heap next kernel_calls]. repeat split.
    intros a Ha. by rewrite !decide_False by done.
Qed.

Lemma point_mass_gravity_run
    (clon clat crad : ndarray F) (extra : list (ndarray F))
    (longitude_p latitude_p radius_p mass : F) (field : string) (kernel : JitKernel F)
    (shp : list nat) (w : world F) :
  kernels !! field = Some kernel →
  broadcast_all [shape clon; shape clat; shape crad] = Some shp →
  shape_size shp ≤ length (data clon) →
  shape_size shp ≤ length (data clat) →
  shape_size shp ≤ length (data crad) →
  kernel_returns_at kernel (data clon) (data clat) (data crad)
    (Triple longitude_p latitude_p radius_p) (shape_size shp) →
  ∃ w' res,
    point_mass_gravity GRAVITATIONAL_CONST (clon :: clat :: crad :: extra)
      [longitude_p; latitude_p; radius_p] mass field w = (w', inr res)
    ∧ shape res = shp
    ∧ length (data res) = shape_size shp
    ∧ next w' = S (next w)
    ∧ kernel_calls w' = kernel_calls w + shape_size shp
    ∧ (∀ a, a ≠ next w → heap w' a = heap w a)
    ∧ (∀ l o k, l < shape_size shp →
         observation (data clon) (data clat) (data crad) l = Some o →
         jit_kernel_call kernel o (Triple longitude_p latitude_p radius_p) = inr k →
         data res !! l = Some (post_factors GRAVITATIONAL_CONST mass field (0 + k)%fl)).
Proof.
  intros Hk Hb Hlon Hlat Hrad Hret.
  rewrite (point_mass_gravity_unfold _ _ _ _ _ _ _ kernel shp) by done.
  set (w1 := World _ _ _ _ _).
  assert (heap w1 (next w) = replicate (shape_size shp) 0%fl) as Hbuf.
  { subst w1. cbn [heap]. by rewrite decide_True. }
  assert (length (heap w1 (next w)) = shape_size shp) as Hlen1.
  { rewrite Hbuf. apply length_replicate. }
  destruct (jit_point_mass_gravity_run (data clon) (data clat) (data crad)
              longitude_p latitude_p radius_p kernel (next w) w1)
    as (w2 & Hrun & Hnext & Hcalls & _ & Hframe & Hlen & Hrest & Hdone);
    [lia.. | by rewrite Hlen1 |].
  rewrite (bind_inr _ _ w1 w2 tt) by done.
  destruct (point_mass_gravity_finish (next w) mass field shp w2)
    as (w' & -> & Hnext' & Hcalls' & Hframe').
  exists w', (NdArray shp (post_factors GRAVITATIONAL_CONST mass field <$> heap w2 (next w))).
  cbn [shape data]. rewrite length_fmap.
  repeat split; [lia | subst w1; cbn in *; lia | subst w1; cbn in *; lia | |].
  - intros a Ha. rewrite Hframe', Hframe by done. subst w1. cbn [heap]. by rewrite decide_False.
  - intros l o k Hl Ho Hko. rewrite list_lookup_fmap.
    rewrite (Hdone l 0%fl o k); [done | lia | | done..].
    rewrite Hbuf. apply lookup_replicate_2. lia.
Qed.

(** Whatever the coordinate arrays hold, a call that has reached the loop
    returns an array of the broadcast shape or raises
    [ZeroDivisionError]. *)
Lemma point_mass_gravity_outcome
    (clon clat crad : ndarray F) (extra : list (ndarray F))
    (longitude_p latitude_p radius_p mass : F) (field : string) (kernel : JitKernel F)
    (shp : list nat) (w : world F) :
  kernels !! field = Some kernel →
  broadcast_all [shape clon; shape clat; shape crad] = Some shp →
  ∃ w',
    (∃ res, point_mass_gravity GRAVITATIONAL_CONST (clon :: clat :: crad :: extra)
              [longitude_p; latitude_p; radius_p] mass field w = (w', inr res)
            ∧ shape res = shp ∧ length (data res) = shape_size shp)
    ∨ point_mass_gravity GRAVITATIONAL_CONST (clon :: clat :: crad :: extra)
        [longitude_p; latitude_p; radius_p] mass field w = (w', inl ZeroDivisionError).
Proof.
  intros Hk Hb.
  rewrite (point_mass_gravity_unfold _ _ _ _ _ _ _ kernel shp) by done.
  set (w1 := World _ _ _ _ _).
  assert (length (heap w1 (next w)) = shape_size shp) as Hlen1.
  { subst w1. cbn [heap]. rewrite decide_True by done. apply length_replicate. }
  destruct (jit_point_mass_gravity (data clon) (data clat) (Own (data crad))
              [longitude_p; latitude_p; radius_p] kernel (next w) w1) as [w2 r] eqn:Hrun.
  destruct (jit_point_mass_gravity_outcome _ _ _ _ _ _ _ _ _ _ _ (kernels_raise _ _ Hk) Hrun)
    as [(_ & _ & Hlen) Hexn].
  destruct r as [e|[]].
  - exists w2. right. rewrite (Hexn e eq_refl) in Hrun. by apply bind_inl.
  - destruct (point_mass_gravity_finish (next w) mass field shp w2) as (w' & Hfin & _).
    exists w'. left. eexists. split.
    + rewrite (bind_inr _ _ w1 w2 tt) by done. exact Hfin.
    + cbn [shape data]. rewrite length_fmap. split; [done | lia].
Qed.

(** A call stopped by the kernel at index [j]. *)
Lemma point_mass_gravity_stops
    (clon clat crad : ndarray F) (extra : list (ndarray F))
    (longitude_p latitude_p radius_p mass : F) (field : string) (kernel : JitKernel F)
    (shp : list nat) (j : nat) (oj : coordinate_triple F) (e : exn) (w : world F) :
  kernels !! field = Some kernel →
  broadcast_all [shape clon; shape clat; shape crad] = Some shp →
  j < shape_size shp →
  j ≤ length (data clon) → j ≤ length (data clat) → j ≤ length (data crad) →
  kernel_returns_at kernel (data clon) (data clat) (data crad)
    (Triple longitude_p latitude_p radius_p) j →
  observation (data clon) (data clat) (data crad) j = Some oj →
  jit_kernel_call kernel oj (Triple longitude_p latitude_p radius_p) = inl e →
  ∃ w', point_mass_gravity GRAVITATIONAL_CONST (clon :: clat :: crad :: extra)
          [longitude_p; latitude_p; radius_p] mass field w = (w', inl ZeroDivisionError)
        ∧ kernel_calls w' = kernel_calls w + S j.
Proof.
  intros Hk Hb Hj Hlon Hlat Hrad Hret Hoj He.
  rewrite (point_mass_gravity_unfold _ _ _ _ _ _ _ kernel shp) by done.
  set (w1 := World _ _ _ _ _).
  assert (length (heap w1 (next w)) = shape_size shp) as Hlen1.
  { subst w1. cbn [heap]. rewrite decide_True by done. apply length_replicate. }
  destruct (jit_point_mass_gravity_stops (data clon) (data clat) (data crad)
              longitude_p latitude_p radius_p kernel (next w) j oj e w1)
    as (w2 & Hrun & _ & Hcalls & _); [lia | done..|].
  assert (e = ZeroDivisionError) as ->.
  { unfold jit_kernel_call in He. by eapply (kernels_raise _ _ Hk). }
  exists w2. split; [by apply bind_inl | done].
Qed.

(** ** The kernels compute the specified formulas *)



(** ** The entry point *)

Lemma append_String (a : Ascii.ascii) (s t : string) :
  String a s +:+ t = String a (s +:+ t).
Proof. reflexivity. Qed.

Lemma prefix_app (s t : string) : String.prefix s (s +:+ t) = true.
Proof.
  induction s as [|a s IH]; [by destruct t|].
  rewrite append_String. cbn. destruct (Ascii.ascii_dec a a); [apply IH | done].
Qed.

Lemma str_in_prefix (s t : string) : String.prefix s t = true → str_in s t = true.
Proof. intros Hp. destruct t; cbn [str_in]; by rewrite Hp. Qed.

Lemma str_in_String (s t : string) (a : Ascii.ascii) :
  str_in s t = true → str_in s (String a t) = true.
Proof. intros Hs. cbn [str_in]. by destruct (String.prefix s (String a t)). Qed.

Lemma message_names_field (field : string) :
  str_in field ("Gravity field " +:+ field +:+ " not recognized") = true.
Proof.
  rewrite !append_String. do 14 apply str_in_String.
  change ("" +:+ field +:+ " not recognized") with (field +:+ " not recognized").
  apply str_in_prefix, prefix_app.
Qed.

(** C4.  A field that is neither "potential" nor "g_radial" makes
    [point_mass_gravity] raise the invalid-field error (a [ValueError]),
    whose message names the field; the store is left as it was: nothing
    has been allocated, no kernel has been evaluated, and there is no
    output. *)
Theorem invalid_field_raises
    (coordinates : list (ndarray F)) (point : list F) (mass : F) (field : string) (w : world F) :
  field ≠ "potential" → field ≠ "g_radial" →
  ∃ msg, point_mass_gravity GRAVITATIONAL_CONST coordinates point mass field w = (w, inl (ValueError msg))
         ∧ msg = "Gravity field " +:+ field +:+ " not recognized"
         ∧ str_in field msg = true.
Proof.
  intros H1 H2. eexists. split; [|split; [reflexivity|apply message_names_field]].
  unfold point_mass_gravity. by rewrite kernels_None.
Qed.

(** C10.  Only the first three entries of [coordinates] count: two calls
    that agree on them and on the other arguments have the same outcome. *)
Theorem extra_coordinates_ignored
    (coordinates1 coordinates2 : list (ndarray F)) (point : list F) (mass : F)
    (field : string) (w : world F) :
  firstn 3 coordinates1 = firstn 3 coordinates2 →
  point_mass_gravity GRAVITATIONAL_CONST coordinates1 point mass field w
  = point_mass_gravity GRAVITATIONAL_CONST coordinates2 point mass field w.
Proof. intros Heq. unfold point_mass_gravity. by rewrite Heq. Qed.

(** C3.  For a call whose coordinate arrays hold an observation point for
    every element of the result, none of them at a zero divisor of the
    kernels: the call returns; each element of the potential is the kernel
    value accumulated from zero, times G·mass, and nothing more; each
    element of the radial acceleration is the kernel value accumulated from
    zero, times G·mass, times 1e5.  The products are the float products
    of the code, in its order. *)
Theorem post_factors_by_field
    (mass : F) (clon clat crad : ndarray F) (extra : list (ndarray F))
    (longitude_p latitude_p radius_p : F) (shp : list nat) (w : world F) :
  broadcast_all [shape clon; shape clat; shape crad] = Some shp →
  shape_size shp ≤ length (data clon) →
  shape_size shp ≤ length (data clat) →
  shape_size shp ≤ length (data crad) →
  (∀ l o, l < shape_size shp →
     observation (data clon) (data clat) (data crad) l = Some o →
     is_zero (divisor_potential o (Triple longitude_p latitude_p radius_p)) = false
     ∧ is_zero (divisor_g_radial o (Triple longitude_p latitude_p radius_p)) = false) →
  (∃ w' res,
     point_mass_gravity GRAVITATIONAL_CONST (clon :: clat :: crad :: extra)
       [longitude_p; latitude_p; radius_p] mass "potential" w = (w', inr res)
     ∧ length (data res) = shape_size shp
     ∧ ∀ l, l < shape_size shp →
         ∃ o, observation (data clon) (data clat) (data crad) l = Some o
              ∧ data res !! l
                = Some ((0 + kernel_call kernel_potential o
                               (Triple longitude_p latitude_p radius_p))
                        * (GRAVITATIONAL_CONST * mass))%fl)
  ∧ (∃ w' res,
       point_mass_gravity GRAVITATIONAL_CONST (clon :: clat :: crad :: extra)
         [longitude_p; latitude_p; radius_p] mass "g_radial" w = (w', inr res)
       ∧ length (data res) = shape_size shp
       ∧ ∀ l, l < shape_size shp →
           ∃ o, observation (data clon) (data clat) (data crad) l = Some o
                ∧ data res !! l
                  = Some ((0 + kernel_call kernel_g_radial o
                                 (Triple longitude_p latitude_p radius_p))
                          * (GRAVITATIONAL_CONST * mass) * 1e5)%fl).
Proof.
  intros Hb Hlon Hlat Hrad Hnz. split.
  - destruct (point_mass_gravity_run clon clat crad extra longitude_p latitude_p radius_p
                mass "potential" jit_kernel_potential shp w)
      as (w' & res & Hrun & _ & Hlen & _ & _ & _ & Hdata); [done..| |].
    { intros l o Hl Ho. rewrite jit_kernel_potential_call.
      destruct (Hnz l o Hl Ho) as [-> _]. eauto. }
    exists w', res. repeat split; [done..|].
    intros l Hl.
    destruct (observation_Some (data clon) (data clat) (data crad) l) as [o Hobs]; [lia..|].
    exists o. split; [done|]. apply (Hdata l o); [done..|].
    rewrite jit_kernel_potential_call. by destruct (Hnz l o Hl Hobs) as [-> _].
  - destruct (point_mass_gravity_run clon clat crad extra longitude_p latitude_p radius_p
                mass "g_radial" jit_kernel_g_radial shp w)
      as (w' & res & Hrun & _ & Hlen & _ & _ & _ & Hdata); [done..| |].
    { intros l o Hl Ho. rewrite jit_kernel_g_radial_call.
      destruct (Hnz l o Hl Ho) as [_ ->]. eauto. }
    exists w', res. repeat split; [done..|].
    intros l Hl.
    destruct (observation_Some (data clon) (data clat) (data crad) l) as [o Hobs]; [lia..|].
    exists o. split; [done|]. apply (Hdata l o); [done..|].
    rewrite jit_kernel_g_radial_call. by destruct (Hnz l o Hl Hobs) as [_ ->].
Qed.



(** C7.  A call with a recognized field, a point of three entries and
    coordinate arrays of broadcast-compatible shapes either returns an
    array that has exactly the broadcast shape, with as many elements as
    the shape has, or raises [ZeroDivisionError]; no other outcome exists.
    It returns whenever the arrays hold an observation point for every
    element and the kernel returns at each. *)
Theorem result_has_broadcast_shape
    (coordinates : list (ndarray F)) (clon clat crad : ndarray F) (point : list F)
    (mass : F) (field : string) (kernel : JitKernel F) (shp : list nat) (w : world F) :
  kernels !! field = Some kernel →
  length point = 3 →
  firstn 3 coordinates = [clon; clat; crad] →
  broadcast_all [shape clon; shape clat; shape crad] = Some shp →
  (∃ w',
     (∃ res, point_mass_gravity GRAVITATIONAL_CONST coordinates point mass field w
             = (w', inr res)
             ∧ shape res = shp ∧ length (data res) = shape_size shp)
     ∨ point_mass_gravity GRAVITATIONAL_CONST coordinates point mass field w
       = (w', inl ZeroDivisionError))
  ∧ (shape_size shp ≤ length (data clon) →
     shape_size shp ≤ length (data clat) →
     shape_size shp ≤ length (data crad) →
     (∀ l o longitude_p latitude_p radius_p, l < shape_size shp →
        point = [longitude_p; latitude_p; radius_p] →
        observation (data clon) (data clat) (data crad) l = Some o →
        ∃ k, jit_kernel_call kernel o (Triple longitude_p latitude_p radius_p) = inr k) →
     ∃ w' res, point_mass_gravity GRAVITATIONAL_CONST coordinates point mass field w
               = (w', inr res)
               ∧ shape res = shp ∧ length (data res) = shape_size shp).
Proof.
  intros Hk (longitude_p & latitude_p & radius_p & ->)%length_3 Hc%firstn_3_cons Hb.
  rewrite Hc. split.
  - by eapply point_mass_gravity_outcome.
  - intros Hlon Hlat Hrad Hret.
    destruct (point_mass_gravity_run clon clat crad (drop 3 coordinates)
                longitude_p latitude_p radius_p mass field kernel shp w)
      as (w' & res & Hrun & Hshape & Hlen & _); [done..| |by eauto].
    intros l o Hl Ho. by eapply Hret.
Qed.

(** X7.  With the preconditions of a returning call except that the kernel
    raises at observation point [j], having returned at the points before
    it: [point_mass_gravity] raises [ZeroDivisionError] and returns no
    array, after [j + 1] kernel evaluations. *)
Theorem zero_divisor_raises
    (clon clat crad : ndarray F) (extra : list (ndarray F))
    (longitude_p latitude_p radius_p mass : F) (field : string) (kernel : JitKernel F)
    (shp : list nat) (j : nat) (oj : coordinate_triple F) (e : exn) (w : world F) :
  kernels !! field = Some kernel →
  broadcast_all [shape clon; shape clat; shape crad] = Some shp →
  j < shape_size shp →
  j ≤ length (data clon) → j ≤ length (data clat) → j ≤ length (data crad) →
  (∀ l o, l < j → observation (data clon) (data clat) (data crad) l = Some o →
     ∃ k, jit_kernel_call kernel o (Triple longitude_p latitude_p radius_p) = inr k) →
  observation (data clon) (data clat) (data crad) j = Some oj →
  jit_kernel_call kernel oj (Triple longitude_p latitude_p radius_p) = inl e →
  ∃ w', point_mass_gravity GRAVITATIONAL_CONST (clon :: clat :: crad :: extra)
          [longitude_p; latitude_p; radius_p] mass field w = (w', inl ZeroDivisionError)
        ∧ kernel_calls w' = kernel_calls w + S j.
Proof. intros. by eapply point_mass_gravity_stops. Qed.

(** X8.  With a recognized field and coordinate arrays whose shapes are not
    broadcast-compatible, the call raises the shape error of [np.broadcast]
    and leaves the store as it was: no buffer has been allocated. *)
Theorem incompatible_shapes_raise
    (coordinates : list (ndarray F)) (point : list F) (mass : F) (field : string)
    (w : world F) :
  field = "potential" ∨ field = "g_radial" →
  broadcast_all (shape <$> firstn 3 coordinates) = None →
  point_mass_gravity GRAVITATIONAL_CONST coordinates point mass field w
  = (w, inl ShapeMismatch).
Proof.
  intros Hfield Hb. unfold point_mass_gravity, np_broadcast.
  destruct Hfield as [-> | ->].
  - rewrite kernels_potential, Hb. done.
  - rewrite kernels_g_radial, Hb. done.
Qed.

(** X9.  With valid coordinates but a point that does not have exactly
    three entries, the call raises the unpacking error; by then the zeroed
    output buffer has been allocated, but no kernel has been evaluated. *)
Theorem wrong_point_length_raises
    (clon clat crad : ndarray F) (extra : list (ndarray F)) (point : list F) (mass : F)
    (field : string) (shp : list nat) (w : world F) :
  field = "potential" ∨ field = "g_radial" →
  broadcast_all [shape clon; shape clat; shape crad] = Some shp →
  length point ≠ 3 →
  ∃ w', point_mass_gravity GRAVITATIONAL_CONST (clon :: clat :: crad :: extra) point mass
          field w = (w', inl (UnpackError 3 (length point)))
        ∧ next w' = S (next w)
        ∧ heap w' (next w) = replicate (shape_size shp) (of_Z 0)
        ∧ (∀ a, a ≠ next w → heap w' a = heap w a)
        ∧ kernel_calls w' = kernel_calls w.
Proof.
  intros Hfield Hb Hpoint.
  assert (∃ kernel, kernels (F:=F) !! field = Some kernel) as [kernel Hk].
  { destruct Hfield as [-> | ->]; eexists; [apply kernels_potential | apply kernels_g_radial]. }
  rewrite (point_mass_gravity_unfold _ _ _ _ _ _ _ kernel shp) by done.
  eexists. split.
  - apply bind_inl. unfold jit_point_mass_gravity. apply bind_inl.
    destruct point as [|? [|? [|? [|? ?]]]]; try reflexivity. done.
  - cbn [heap next kernel_calls]. rewrite decide_True by done.
    repeat split. intros a Ha. by rewrite decide_False.
Qed.

(** X10.  When the kernel raises at index [j] of the accumulation loop,
    having returned at the indices before it, the loop raises the same
    exception and leaves the buffer partly updated: the elements before
    [j] have received their kernel values, the elements from [j] on are as
    they were. *)
Theorem accumulation_stops_at_raise
    (longitude latitude radius : list F) (longitude_p latitude_p radius_p : F)
    (kernel : JitKernel F) (out : loc) (j : nat) (oj : coordinate_triple F) (e : exn)
    (w : world F) :
  j < length (heap w out) →
  j ≤ length longitude → j ≤ length latitude → j ≤ length radius →
  (∀ l o, l < j → observation longitude latitude radius l = Some o →
     ∃ k, jit_kernel_call kernel o (Triple longitude_p latitude_p radius_p) = inr k) →
  observation longitude latitude radius j = Some oj →
  jit_kernel_call kernel oj (Triple longitude_p latitude_p radius_p) = inl e →
  ∃ w', jit_point_mass_gravity longitude latitude (Own radius)
          [longitude_p; latitude_p; radius_p] kernel out w = (w', inl e)
        ∧ length (heap w' out) = length (heap w out)
        ∧ (∀ i, j ≤ i → heap w' out !! i = heap w out !! i)
        ∧ (∀ i x o k, i < j → heap w out !! i = Some x →
             observation longitude latitude radius i = Some o →
             jit_kernel_call kernel o (Triple longitude_p latitude_p radius_p) = inr k →
             heap w' out !! i = Some (x + k)%fl).
Proof.
  intros Hj Hlon Hlat Hrad Hret Hoj He.
  destruct (jit_point_mass_gravity_stops longitude latitude radius
              longitude_p latitude_p radius_p kernel out j oj e w)
    as (w' & Hrun & _ & _ & _ & Hlen & Hrest & Hdone); [done..|].
  by exists w'.
Qed.

(** X11.  Whatever the coordinate arrays hold and whatever [radius] is, a
    view of the buffer itself included, a run of the accumulation loop with
    a kernel whose only exception is [ZeroDivisionError] returns or raises
    [ZeroDivisionError]; either way it has written to no buffer of the
    store but [out], and [out] has kept its length. *)
Theorem accumulation_frame
    (longitude latitude : list F) (radius : array_arg F) (longitude_p latitude_p radius_p : F)
    (kernel : JitKernel F) (out : loc) (w : world F) :
  raises_only_zero_division kernel →
  let run := jit_point_mass_gravity longitude latitude radius
               [longitude_p; latitude_p; radius_p] kernel out w in
  (run.2 = inr tt ∨ run.2 = inl ZeroDivisionError)
  ∧ (∀ a, a ≠ out → heap run.1 a = heap w a)
  ∧ length (heap run.1 out) = length (heap w out).
Proof.
  intros Hkernel run.
  destruct (jit_point_mass_gravity_outcome longitude latitude radius
              longitude_p latitude_p radius_p kernel out w run.1 run.2 Hkernel)
    as [(Hnext & Hframe & Hlen) Hexn]; [apply surjective_pairing|].
  split; [|done].
  destruct run.2 as [e|[]]; [right | by left]. by rewrite (Hexn e).
Qed.
End ProgramFacts.

(** ** Facts about [jit_point_masses_gravity], for every carrier *)

Section PointMassesFacts.
Context {F : Type} `{Float64 F}.

(** A loop rule for [for_each_acc], as [for_each_invariant]. *)
Lemma for_each_acc_invariant {A : Type} (I : nat → A → world F → Prop)
    (body : nat → A → M F A) (n : nat) :
  ∀ (s : nat) (acc : A) (w : world F),
    I s acc w →
    (∀ l a w1, s ≤ l < s + n → I l a w1 →
               ∃ a' w2, body l a w1 = (w2, inr a') ∧ I (S l) a' w2) →
    ∃ a' w', for_each_acc (seq s n) body acc w = (w', inr a') ∧ I (s + n) a' w'.
Proof.
  induction n as [|n IH]; intros s acc w Hs Hbody; simpl.
  - exists acc, w. rewrite Nat.add_0_r. done.
  - destruct (Hbody s acc w) as (a1 & w1 & Hrun & HI); [lia | done |].
    destruct (IH (S s) a1 w1) as (a' & w' & Hrun' & HI'); [done | |].
    { intros l a w2 Hl. apply Hbody. lia. }
    exists a', w'. split; [|by replace (s + S n) with (S s + n) by lia].
    by rewrite (bind_inr _ _ w w1 a1).
Qed.

Lemma for_each_acc_raise {A : Type} (body : nat → A → M F A) (ls1 ls2 : list nat) (j : nat)
    (acc acc1 : A) (w w1 w2 : world F) (e : exn) :
  for_each_acc ls1 body acc w = (w1, inr acc1) →
  body j acc1 w1 = (w2, inl e) →
  for_each_acc (ls1 ++ j :: ls2) body acc w = (w2, inl e).
Proof.
  revert acc w. induction ls1 as [|i ls1 IH]; intros acc w Hrun Hj.
  - injection Hrun as -> ->. cbn [app for_each_acc]. by apply bind_inl.
  - cbn [app for_each_acc] in *. unfold mbind, M_bind in *.
    destruct (body i acc w) as [wi [ei|ai]]; [discriminate|]. by apply IH.
Qed.

Lemma lookup_fmap_app {A B : Type} (f : A → B) (xs : list A) (extra : list B) (l : nat) (x : A) :
  xs !! l = Some x → ((f <$> xs) ++ extra) !! l = Some (f x).
Proof.
  intros Hx. rewrite lookup_app_l by (rewrite length_fmap; by eapply lookup_lt_Some).
  by rewrite list_lookup_fmap, Hx.
Qed.

Lemma weighted_sum_snoc (value : Kernel F) (obs : coordinate_triple F)
    (srcs : list (source F)) (s : source F) :
  weighted_sum value obs (srcs ++ [s])
  = (weighted_sum value obs srcs + s.2 * kernel_call value obs s.1)%fl.
Proof. unfold weighted_sum. by rewrite foldl_app. Qed.

(** One iteration at a point mass the arrays hold. *)
Lemma jit_point_masses_gravity_body_run
    (kernel : JitKernel F) (obs : coordinate_triple F) (srcs : list (source F))
    (e1 e2 e3 : list F) (l : nat) (s : source F) (out : F) (w : world F) :
  srcs !! l = Some s →
  jit_point_masses_gravity_body
    (np_radians (lon obs)) (np_cos (np_radians (lat obs))) (np_sin (np_radians (lat obs)))
    (rad obs)
    (np_radians <$> ((λ s, lon s.1) <$> srcs))
    (np_cos <$> (np_radians <$> ((λ s, lat s.1) <$> srcs) ++ e1))
    (np_sin <$> (np_radians <$> ((λ s, lat s.1) <$> srcs) ++ e1))
    (((λ s, rad s.1) <$> srcs) ++ e2)
    ((λ r, r ^ 2)%fl <$> ((λ s, rad s.1) <$> srcs) ++ e2)
    ((snd <$> srcs) ++ e3) kernel l out w
  = let w1 := World (heap w) (next w) (S (kernel_calls w)) (stray w) (stray_reads w) in
    match jit_kernel_call kernel obs s.1 with
    | inl e => (w1, inl e)
    | inr k => (w1, inr (out + s.2 * k)%fl)
    end.
Proof.
  intros Hs. unfold jit_point_masses_gravity_body.
  rewrite (bind_inr _ _ w w s.2) by by apply getitem_Some, lookup_fmap_app.
  rewrite (bind_inr _ _ w w (np_radians (lon s.1)))
    by by apply getitem_Some; rewrite !list_lookup_fmap, Hs.
  rewrite (bind_inr _ _ w w (np_cos (np_radians (lat s.1))))
    by by apply getitem_Some; rewrite !fmap_app, <-!list_fmap_compose;
          apply (lookup_fmap_app (λ s, np_cos (np_radians (lat s.1)))).
  rewrite (bind_inr _ _ w w (np_sin (np_radians (lat s.1))))
    by by apply getitem_Some; rewrite !fmap_app, <-!list_fmap_compose;
          apply (lookup_fmap_app (λ s, np_sin (np_radians (lat s.1)))).
  rewrite (bind_inr _ _ w w (rad s.1))
    by by apply getitem_Some, (lookup_fmap_app (λ s, rad s.1)).
  rewrite (bind_inr _ _ w w (rad s.1 ^ 2)%fl)
    by by apply getitem_Some; rewrite !fmap_app, <-!list_fmap_compose;
          apply (lookup_fmap_app (λ s, (rad s.1 ^ 2)%fl)).
  unfold mbind, M_bind. cbn [call mret M_ret]. unfold jit_kernel_call.
  by destruct (kernel _ _ _ _ _ _ _ _ _).
Qed.

(** The first [j] iterations, when the kernel returns the value of [value]
    at each of the first [j] point masses. *)
Lemma jit_point_masses_gravity_prefix
    (value : Kernel F) (kernel : JitKernel F) (obs : coordinate_triple F)
    (srcs : list (source F)) (e1 e2 e3 : list F) (j : nat) (w : world F) :
  j ≤ length srcs →
  Forall (λ s, jit_kernel_call kernel obs s.1 = inr (kernel_call value obs s.1))
    (take j srcs) →
  ∃ w', for_each_acc (seq 0 j)
          (jit_point_masses_gravity_body
             (np_radians (lon obs)) (np_cos (np_radians (lat obs)))
             (np_sin (np_radians (lat obs))) (rad obs)
             (np_radians <$> ((λ s, lon s.1) <$> srcs))
             (np_cos <$> (np_radians <$> ((λ s, lat s.1) <$> srcs) ++ e1))
             (np_sin <$> (np_radians <$> ((λ s, lat s.1) <$> srcs) ++ e1))
             (((λ s, rad s.1) <$> srcs) ++ e2)
             ((λ r, r ^ 2)%fl <$> ((λ s, rad s.1) <$> srcs) ++ e2)
             ((snd <$> srcs) ++ e3) kernel) 0%fl w
        = (w', inr (weighted_sum value obs (take j srcs)))
        ∧ kernel_calls w' = kernel_calls w + j.
Proof.
  intros Hj Hret.
  destruct (for_each_acc_invariant
              (λ l a w1, kernel_calls w1 = kernel_calls w + l
                         ∧ a = weighted_sum value obs (take l srcs))
              (jit_point_masses_gravity_body
                 (np_radians (lon obs)) (np_cos (np_radians (lat obs)))
                 (np_sin (np_radians (lat obs))) (rad obs)
                 (np_radians <$> ((λ s, lon s.1) <$> srcs))
                 (np_cos <$> (np_radians <$> ((λ s, lat s.1) <$> srcs) ++ e1))
                 (np_sin <$> (np_radians <$> ((λ s, lat s.1) <$> srcs) ++ e1))
                 (((λ s, rad s.1) <$> srcs) ++ e2)
                 ((λ r, r ^ 2)%fl <$> ((λ s, rad s.1) <$> srcs) ++ e2)
                 ((snd <$> srcs) ++ e3) kernel)
              j 0 0%fl w) as (a' & w' & Hrun & Hcalls & ->).
  - split; [lia | done].
  - intros l a w1 Hl (Hcalls & ->).
    destruct (lookup_lt_is_Some_2 srcs l) as [s Hs]; [lia|].
    rewrite (jit_point_masses_gravity_body_run _ _ _ _ _ _ _ s) by done.
    cbn zeta.
    assert (jit_kernel_call kernel obs s.1 = inr (kernel_call value obs s.1)) as ->.
    { eapply (Forall_lookup_1 _ _ l s Hret). rewrite lookup_take_lt by lia. done. }
    eexists _, _. split; [reflexivity|]. cbn [kernel_calls].
    split; [lia|]. rewrite (take_S_r srcs l s) by done. by rewrite weighted_sum_snoc.
  - exists w'. done.
Qed.

(** X1.  Called with one entry per point mass in [longitude_p] and at least
    as many in the other arrays, with a kernel that returns at every point
    mass, [jit_point_masses_gravity] returns the masses times the kernel
    values added up from 0 in the order of the arrays (0 for no point
    mass), having evaluated the kernel once per point mass. *)
Theorem point_masses_weighted_sum
    (value : Kernel F) (kernel : JitKernel F) (obs : coordinate_triple F)
    (srcs : list (source F)) (e1 e2 e3 : list F) (w : world F) :
  Forall (λ s, jit_kernel_call kernel obs s.1 = inr (kernel_call value obs s.1)) srcs →
  ∃ w', jit_point_masses_gravity [lon obs; lat obs; rad obs]
          ((λ s, lon s.1) <$> srcs)
          (((λ s, lat s.1) <$> srcs) ++ e1)
          (((λ s, rad s.1) <$> srcs) ++ e2)
          ((snd <$> srcs) ++ e3) kernel w
        = (w', inr (foldl (λ out s, out + s.2 * kernel_call value obs s.1)%fl 0%fl srcs))
        ∧ kernel_calls w' = kernel_calls w + length srcs.
Proof.
  intros Hret.
  unfold jit_point_masses_gravity. cbn [unpack3].
  rewrite (bind_inr _ _ w w (lon obs, lat obs, rad obs)) by done.
  unfold for_range_acc. rewrite !length_fmap.
  destruct (jit_point_masses_gravity_prefix value kernel obs srcs e1 e2 e3 (length srcs) w)
    as (w' & Hrun & Hcalls); [done | by rewrite firstn_all |].
  rewrite firstn_all in Hrun. by exists w'.
Qed.

(** X2.  When the kernel raises at a point mass, having returned at the
    point masses before it, [jit_point_masses_gravity] raises the same
    exception and returns no value; the point masses after it are not
    visited. *)
Theorem point_masses_stop_at_raise
    (value : Kernel F) (kernel : JitKernel F) (obs : coordinate_triple F)
    (before after : list (source F)) (s : source F) (e : exn) (e1 e2 e3 : list F)
    (w : world F) :
  Forall (λ s, jit_kernel_call kernel obs s.1 = inr (kernel_call value obs s.1)) before →
  jit_kernel_call kernel obs s.1 = inl e →
  ∃ w', jit_point_masses_gravity [lon obs; lat obs; rad obs]
          ((λ s, lon s.1) <$> before ++ s :: after)
          (((λ s, lat s.1) <$> before ++ s :: after) ++ e1)
          (((λ s, rad s.1) <$> before ++ s :: after) ++ e2)
          ((snd <$> before ++ s :: after) ++ e3) kernel w
        = (w', inl e)
        ∧ kernel_calls w' = kernel_calls w + S (length before).
Proof.
  intros Hret He. set (srcs := before ++ s :: after).
  assert (length srcs = length before + S (length after)) as Hlen.
  { subst srcs. rewrite length_app. done. }
  assert (take (length before) srcs = before) as Htake.
  { subst srcs. by rewrite take_app_length. }
  assert (srcs !! length before = Some s) as Hs.
  { subst srcs. by rewrite list_lookup_middle. }
  unfold jit_point_masses_gravity. cbn [unpack3].
  rewrite (bind_inr _ _ w w (lon obs, lat obs, rad obs)) by done.
  unfold for_range_acc. rewrite !length_fmap.
  destruct (jit_point_masses_gravity_prefix value kernel obs srcs e1 e2 e3 (length before) w)
    as (w1 & Hrun & Hcalls); [lia | by rewrite Htake |].
  pose proof (jit_point_masses_gravity_body_run kernel obs srcs e1 e2 e3 (length before) s
                (weighted_sum value obs (take (length before) srcs)) w1 Hs) as Hbody.
  cbn zeta in Hbody. rewrite He in Hbody.
  eexists. split.
  - replace (seq 0 (length srcs))
      with (seq 0 (length before) ++ length before :: seq (S (length before)) (length after)).
    + by eapply for_each_acc_raise.
    + change (length before :: seq (S (length before)) (length after))
        with (seq (0 + length before) (S (length after))).
      rewrite <-seq_app. f_equal. lia.
  - cbn [kernel_calls]. lia.
Qed.
End PointMassesFacts.

(** ** Facts about the program in double precision *)

Section Binary64Facts.
Context {L : libm}.

(** Float addition and multiplication commute. *)
Lemma SFmul_comm (prec emax : Z) (x y : SpecFloat.spec_float) :
  SpecFloat.SFmul prec emax x y = SpecFloat.SFmul prec emax y x.
Proof.
  destruct x as [sx|sx| |sx mx ex], y as [sy|sy| |sy my ey]; cbn [SpecFloat.SFmul];
    try reflexivity; try (by rewrite xorb_comm).
  by rewrite (xorb_comm sx sy), (Pos.mul_comm mx my), (Z.add_comm ex ey).
Qed.

Lemma SFadd_comm (prec emax : Z) (x y : SpecFloat.spec_float) :
  SpecFloat.SFadd prec emax x y = SpecFloat.SFadd prec emax y x.
Proof.
  destruct x as [sx|sx| |sx mx ex], y as [sy|sy| |sy my ey]; cbn [SpecFloat.SFadd];
    try reflexivity; try (by destruct sx, sy).
  cbv zeta. by rewrite (Z.min_comm ex ey), Z.add_comm.
Qed.

Lemma float_mul_comm (x y : float) : (x * y = y * x)%float.
Proof.
  apply FloatAxioms.Prim2SF_inj. rewrite !FloatAxioms.mul_spec. apply SFmul_comm.
Qed.

Lemma float_add_comm (x y : float) : (x + y = y + x)%float.
Proof.
  apply FloatAxioms.Prim2SF_inj. rewrite !FloatAxioms.add_spec. apply SFadd_comm.
Qed.

(** Exchanging the two points, when the cosine of the longitude difference
    and the product 2·r_A·r_B come out the same in both directions. *)
Lemma exchange_points (a b : coordinate_triple float) :
  np_cos (np_radians (lon b) - np_radians (lon a))%fl
  = np_cos (np_radians (lon a) - np_radians (lon b))%fl →
  (2 * rad a * rad b)%fl = (2 * rad b * rad a)%fl →
  computed_cospsi a b = computed_cospsi b a
  ∧ computed_distance_sq a b = computed_distance_sq b a.
Proof.
  intros Hcos Hprod.
  assert (computed_cospsi a b = computed_cospsi b a) as Hpsi.
  { unfold computed_cospsi, kernel_call, cospsi. rewrite Hcos.
    cbn [fadd fmul binary64].
    rewrite (float_mul_comm (np_sin (np_radians (lat b))) (np_sin (np_radians (lat a)))).
    rewrite (float_mul_comm (np_cos (np_radians (lat b))) (np_cos (np_radians (lat a)))).
    done. }
  split; [done|].
  change (computed_distance_sq a b)
    with (rad a ^ 2 + rad b ^ 2 - 2 * rad a * rad b * computed_cospsi a b)%fl.
  change (computed_distance_sq b a)
    with (rad b ^ 2 + rad a ^ 2 - 2 * rad b * rad a * computed_cospsi b a)%fl.
  rewrite Hpsi, Hprod. cbn [fadd binary64].
  by rewrite (float_add_comm (rad a ^ 2)%fl).
Qed.


(** X14.  Reciprocity in double precision: under the same two conditions
    the potential kernel has the same outcome, value or
    [ZeroDivisionError], when the observation point and the point mass are
    exchanged. *)
Theorem potential_kernel_symmetric (a b : coordinate_triple float) :
  np_cos (np_radians (lon b) - np_radians (lon a))%fl
  = np_cos (np_radians (lon a) - np_radians (lon b))%fl →
  (2 * rad a * rad b)%fl = (2 * rad b * rad a)%fl →
  kernel_call kernel_potential a b = kernel_call kernel_potential b a
  ∧ jit_kernel_call jit_kernel_potential a b = jit_kernel_call jit_kernel_potential b a.
Proof.
  intros Hcos Hprod. destruct (exchange_points a b Hcos Hprod) as [_ Hd].
  assert (kernel_call kernel_potential a b = kernel_call kernel_potential b a) as Hk.
  { change (kernel_call kernel_potential a b)
      with (1 / np_sqrt (computed_distance_sq a b))%fl.
    change (kernel_call kernel_potential b a)
      with (1 / np_sqrt (computed_distance_sq b a))%fl.
    by rewrite Hd. }
  split; [done|].
  rewrite !jit_kernel_potential_call, Hk. unfold divisor_potential. by rewrite Hd.
Qed.

(** With every C library, a radius whose double overflows breaks the
    symmetry of the computed distance². *)
Lemma overflow_breaks_symmetry :
  computed_distance_sq (Triple 0 0 0x1.1ccf385ebc8a0p+1023)%float
    (Triple 0 0 0x1.999999999999ap-4)%float = nan
  ∧ computed_distance_sq (Triple 0 0 0x1.999999999999ap-4)%float
      (Triple 0 0 0x1.1ccf385ebc8a0p+1023)%float = infinity.
Proof.
  split.
  - cbv -[libm_cos libm_sin libm_pow]. rewrite ?libm_sin_0, ?libm_cos_0. reflexivity.
  - cbv -[libm_cos libm_sin libm_pow]. rewrite ?libm_sin_0, ?libm_cos_0. reflexivity.
Qed.

(** *** On the axis of the point mass (0, 0, 1) *)

(** Where the point mass is, the divisors of both kernels are zero. *)
Lemma collocated_potential :
  jit_kernel_call jit_kernel_potential (Triple 0 0 1)%float (Triple 0 0 1)%float
  = inl ZeroDivisionError.
Proof.
  rewrite jit_kernel_potential_call.
  cbv -[libm_cos libm_sin libm_pow]. rewrite ?libm_sin_0, ?libm_cos_0. reflexivity.
Qed.

Lemma collocated_g_radial :
  jit_kernel_call jit_kernel_g_radial (Triple 0 0 1)%float (Triple 0 0 1)%float
  = inl ZeroDivisionError.
Proof.
  rewrite jit_kernel_g_radial_call.
  cbv -[libm_cos libm_sin libm_pow]. rewrite ?libm_sin_0, ?libm_cos_0.
  cbv -[libm_cos libm_sin libm_pow]. rewrite libm_pow_0. reflexivity.
Qed.

(** At radius 2 the potential kernel is 1, at radius 4 it is the double
    nearest to 1/3. *)
Lemma potential_at_2 :
  jit_kernel_call jit_kernel_potential (Triple 0 0 2)%float (Triple 0 0 1)%float
  = inr 1%float.
Proof.
  rewrite jit_kernel_potential_call.
  cbv -[libm_cos libm_sin libm_pow]. rewrite ?libm_sin_0, ?libm_cos_0. reflexivity.
Qed.

Lemma potential_at_4 :
  jit_kernel_call jit_kernel_potential (Triple 0 0 4)%float (Triple 0 0 1)%float
  = inr 0x1.5555555555555p-2%float.
Proof.
  rewrite jit_kernel_potential_call.
  cbv -[libm_cos libm_sin libm_pow]. rewrite ?libm_sin_0, ?libm_cos_0. reflexivity.
Qed.

(** C9.  With the observation point (0, 0, 1) where the point mass is,
    [point_mass_gravity] raises [ZeroDivisionError] for both fields, and
    returns no array: the divisor of the kernel is exactly zero, and the
    compiled division raises. *)
Theorem collocated_point_raises (G mass : float) (w : world float) :
  ∃ w1 w2,
    point_mass_gravity G collocated [0; 0; 1]%float mass "potential" w
    = (w1, inl ZeroDivisionError)
    ∧ point_mass_gravity G collocated [0; 0; 1]%float mass "g_radial" w
      = (w2, inl ZeroDivisionError).
Proof.
  destruct (point_mass_gravity_stops G (array [0%float]) (array [0%float]) (array [1%float]) []
              0%float 0%float 1%float mass "potential" jit_kernel_potential [1] 0
              (Triple 0 0 1)%float ZeroDivisionError w)
    as (w1 & Hrun1 & _);
    [reflexivity | reflexivity | cbn; lia.. | intros l o Hl; lia | reflexivity
    | apply collocated_potential |].
  destruct (point_mass_gravity_stops G (array [0%float]) (array [0%float]) (array [1%float]) []
              0%float 0%float 1%float mass "g_radial" jit_kernel_g_radial [1] 0
              (Triple 0 0 1)%float ZeroDivisionError w)
    as (w2 & Hrun2 & _);
    [reflexivity | reflexivity | cbn; lia.. | intros l o Hl; lia | reflexivity
    | apply collocated_g_radial |].
  by exists w1, w2.
Qed.

(** With every C library, the potential three meters above a point mass
    of 5 kg, at G = 1, is the double below 5/3. *)
Lemma directly_above_rounds (w : world float) :
  ∃ w' res,
    point_mass_gravity 1%float above [0; 0; 1]%float 5%float "potential" w = (w', inr res)
    ∧ shape res = [1]
    ∧ data res = [0x1.aaaaaaaaaaaaap+0%float].
Proof.
  destruct (point_mass_gravity_run 1%float (array [0%float]) (array [0%float])
              (array [4%float]) [] 0%float 0%float 1%float 5%float "potential"
              jit_kernel_potential [1] w)
    as (w' & res & Hrun & Hshape & Hlen & _ & _ & _ & Hdata);
    [reflexivity | reflexivity | cbn; lia.. | |].
  { intros [|l] o Hl Ho; [|cbn in Hl; lia]. injection Ho as <-.
    rewrite potential_at_4. eauto. }
  exists w', res. split; [done|]. split; [done|].
  specialize (Hdata 0 (Triple 0 0 4)%float _ ltac:(cbn; lia) eq_refl potential_at_4).
  destruct (data res) as [|x [|? ?]]; try discriminate.
  cbn in Hdata. injection Hdata as ->. reflexivity.
Qed.

(** With every C library, the loop started on the buffer [5, 7] with the
    first observation point where the point mass is raises at once and
    adds nothing to the second element. *)
Lemma raise_leaves_buffer :
  ∃ w', jit_point_mass_gravity [0; 0]%float [0; 0]%float (Own [1; 2]%float)
          [0; 0; 1]%float jit_kernel_potential 0 filled_world
        = (w', inl ZeroDivisionError)
        ∧ heap w' 0 = [5; 7]%float.
Proof.
  destruct (jit_point_mass_gravity_stops [0; 0]%float [0; 0]%float [1; 2]%float
              0%float 0%float 1%float jit_kernel_potential 0 0 (Triple 0 0 1)%float
              ZeroDivisionError filled_world)
    as (w' & Hrun & _ & _ & _ & Hlen & Hrest & _);
    [unfold filled_world; simpl; lia.. | intros l o Hl; lia | reflexivity
    | apply collocated_potential |].
  exists w'. split; [done|].
  apply list_eq. intros i. rewrite Hrest by lia. reflexivity.
Qed.
End Binary64Facts.

(** ** Examples in double precision *)

Section Examples.
Local Existing Instance annex_f.
Local Open Scope float_scope.




(** X12.  When [radius] is the buffer itself read backwards, the second
    iteration reads the element the first has just written: started on
    [5, 7] with the point mass at radius 4, the loop leaves 7.75 in the
    second element, where a copy of the reversed buffer gives 8. *)
Theorem overlapping_radius_is_read_live :
  heap (jit_point_mass_gravity [0; 0] [0; 0] (View 0 1 (-1)) [0; 0; 4] jit_kernel_potential
          0%nat filled_world).1 0%nat = [0x1.5555555555555p+2; 7.75]
  ∧ heap (jit_point_mass_gravity [0; 0] [0; 0] (Own [7; 5]) [0; 0; 4] jit_kernel_potential
            0%nat filled_world).1 0%nat = [0x1.5555555555555p+2; 8].
Proof. split; vm_compute; reflexivity. Qed.


(** *** The theorems at concrete inputs *)

Lemma invalid_field_raises_witness :
  "bogus" ≠ "potential" ∧ "bogus" ≠ "g_radial"
  ∧ ∃ msg, point_mass_gravity 1 two_points [0; 0; 1] 1 "bogus" empty_world
           = (empty_world, inl (ValueError msg))
           ∧ msg = "Gravity field " +:+ "bogus" +:+ " not recognized"
           ∧ str_in "bogus" msg = true.
Proof.
  split; [discriminate|]. split; [discriminate|].
  apply (invalid_field_raises 1 two_points [0; 0; 1] 1 "bogus" empty_world); discriminate.
Defined.

Lemma extra_coordinates_ignored_witness :
  firstn 3 two_points = firstn 3 (two_points ++ [array [99]])
  ∧ point_mass_gravity 1 two_points [0; 0; 1] 1 "g_radial" empty_world
    = point_mass_gravity 1 (two_points ++ [array [99]]) [0; 0; 1] 1 "g_radial" empty_world.
Proof.
  split; [reflexivity|].
  apply (extra_coordinates_ignored 1 two_points (two_points ++ [array [99]])).
  reflexivity.
Defined.

Lemma post_factors_by_field_witness :
  broadcast_all [[2]; [2]; [2]]%nat = Some [2]%nat
  ∧ (∀ l o, (l < shape_size [2])%nat →
       observation [0; 0] [0; 0] [2; 0] l = Some o →
       is_zero (divisor_potential o (Triple 0 0 1)) = false
       ∧ is_zero (divisor_g_radial o (Triple 0 0 1)) = false)
  ∧ (∃ w' res,
       point_mass_gravity 1 two_points [0; 0; 1] 5 "potential" empty_world = (w', inr res)
       ∧ length (data res) = shape_size [2]%nat
       ∧ ∀ l, (l < shape_size [2])%nat →
           ∃ o, observation [0; 0] [0; 0] [2; 0] l = Some o
                ∧ data res !! l
                  = Some ((0 + kernel_call kernel_potential o (Triple 0 0 1)) * (1 * 5)))
  ∧ (∃ w' res,
       point_mass_gravity 1 two_points [0; 0; 1] 5 "g_radial" empty_world = (w', inr res)
       ∧ length (data res) = shape_size [2]%nat
       ∧ ∀ l, (l < shape_size [2])%nat →
           ∃ o, observation [0; 0] [0; 0] [2; 0] l = Some o
                ∧ data res !! l
                  = Some ((0 + kernel_call kernel_g_radial o (Triple 0 0 1)) * (1 * 5)
                          * 100000)).
Proof.
  assert (∀ l o, (l < shape_size [2])%nat →
            observation [0; 0] [0; 0] [2; 0] l = Some o →
            is_zero (divisor_potential o (Triple 0 0 1)) = false
            ∧ is_zero (divisor_g_radial o (Triple 0 0 1)) = false) as Hnz.
  { intros [|[|l]] o Hl Ho; [| |simpl in Hl; lia];
      vm_compute in Ho; injection Ho as <-; split; vm_compute; reflexivity. }
  split; [reflexivity|]. split; [exact Hnz|].
  exact (post_factors_by_field 1 5 (array [0; 0]) (array [0; 0]) (array [2; 0]) []
           0 0 1 [2]%nat empty_world eq_refl
           ltac:(simpl; lia) ltac:(simpl; lia) ltac:(simpl; lia) Hnz).
Defined.



Lemma result_has_broadcast_shape_witness :
  kernels !! "potential" = Some jit_kernel_potential
  ∧ broadcast_all [[10; 20]; [10; 20]; [10; 20]]%nat = Some [10; 20]%nat
  ∧ (∃ w',
       (∃ res, point_mass_gravity 1 [grid_10_20 0; grid_10_20 0; grid_10_20 2] [0; 0; 1] 5
                 "potential" empty_world = (w', inr res)
               ∧ shape res = [10; 20]%nat ∧ length (data res) = shape_size [10; 20]%nat)
       ∨ point_mass_gravity 1 [grid_10_20 0; grid_10_20 0; grid_10_20 2] [0; 0; 1] 5
           "potential" empty_world = (w', inl ZeroDivisionError))
  ∧ ((shape_size [10; 20] ≤ length (data (grid_10_20 0)))%nat →
     (shape_size [10; 20] ≤ length (data (grid_10_20 0)))%nat →
     (shape_size [10; 20] ≤ length (data (grid_10_20 2)))%nat →
     (∀ l o longitude_p latitude_p radius_p, (l < shape_size [10; 20])%nat →
        [0; 0; 1] = [longitude_p; latitude_p; radius_p] →
        observation (data (grid_10_20 0)) (data (grid_10_20 0)) (data (grid_10_20 2)) l
        = Some o →
        ∃ k, jit_kernel_call jit_kernel_potential o (Triple longitude_p latitude_p radius_p)
             = inr k) →
     ∃ w' res, point_mass_gravity 1 [grid_10_20 0; grid_10_20 0; grid_10_20 2] [0; 0; 1] 5
                 "potential" empty_world = (w', inr res)
               ∧ shape res = [10; 20]%nat ∧ length (data res) = shape_size [10; 20]%nat).
Proof.
  split; [reflexivity|]. split; [reflexivity|].
  exact (result_has_broadcast_shape 1 [grid_10_20 0; grid_10_20 0; grid_10_20 2]
           (grid_10_20 0) (grid_10_20 0) (grid_10_20 2) [0; 0; 1] 5 "potential"
           jit_kernel_potential [10; 20]%nat empty_world eq_refl eq_refl eq_refl eq_refl).
Defined.


Lemma point_masses_weighted_sum_witness :
  Forall (λ s : source float,
            jit_kernel_call jit_kernel_potential (Triple 0 0 2) s.1
            = inr (kernel_call kernel_potential (Triple 0 0 2) s.1))
    [(Triple 0 0 1, 5); (Triple 0 0 4, 7)]
  ∧ ∃ w', jit_point_masses_gravity [0; 0; 2] [0; 0] [0; 0] [1; 4] [5; 7] jit_kernel_potential
            empty_world
          = (w', inr (foldl (λ out (s : source float),
                               out + s.2 * kernel_call kernel_potential (Triple 0 0 2) s.1)
                        0 [(Triple 0 0 1, 5); (Triple 0 0 4, 7)]))
          ∧ kernel_calls w' = (kernel_calls empty_world + 2)%nat.
Proof.
  assert (Forall (λ s : source float,
                    jit_kernel_call jit_kernel_potential (Triple 0 0 2) s.1
                    = inr (kernel_call kernel_potential (Triple 0 0 2) s.1))
            [(Triple 0 0 1, 5); (Triple 0 0 4, 7)]) as Hret.
  { repeat constructor; vm_compute; reflexivity. }
  split; [exact Hret|].
  exact (point_masses_weighted_sum kernel_potential jit_kernel_potential (Triple 0 0 2)
           [(Triple 0 0 1, 5); (Triple 0 0 4, 7)] [] [] [] empty_world Hret).
Defined.

Lemma point_masses_stop_at_raise_witness :
  jit_kernel_call jit_kernel_potential (Triple 0 0 2) (Triple 0 0 2) = inl ZeroDivisionError
  ∧ ∃ w', jit_point_masses_gravity [0; 0; 2] [0; 0; 0] [0; 0; 0] [1; 2; 4] [5; 7; 1]
            jit_kernel_potential empty_world
          = (w', inl ZeroDivisionError)
          ∧ kernel_calls w' = (kernel_calls empty_world + 2)%nat.
Proof.
  split; [vm_compute; reflexivity|].
  exact (point_masses_stop_at_raise kernel_potential jit_kernel_potential (Triple 0 0 2)
           [(Triple 0 0 1, 5)] [(Triple 0 0 4, 1)] (Triple 0 0 2, 7) ZeroDivisionError
           [] [] [] empty_world
           ltac:(repeat constructor; vm_compute; reflexivity)
           ltac:(vm_compute; reflexivity)).
Defined.

Lemma zero_divisor_raises_witness :
  observation [0; 0] [0; 0] [2; 1] 1 = Some (Triple 0 0 1)
  ∧ jit_kernel_call jit_kernel_g_radial (Triple 0 0 1) (Triple 0 0 1) = inl ZeroDivisionError
  ∧ ∃ w', point_mass_gravity 1 [array [0; 0]; array [0; 0]; array [2; 1]] [0; 0; 1] 5
            "g_radial" empty_world = (w', inl ZeroDivisionError)
          ∧ kernel_calls w' = (kernel_calls empty_world + 2)%nat.
Proof.
  split; [reflexivity|]. split; [vm_compute; reflexivity|].
  assert (∀ l o, (l < 1)%nat → observation [0; 0] [0; 0] [2; 1] l = Some o →
            ∃ k, jit_kernel_call jit_kernel_g_radial o (Triple 0 0 1) = inr k) as Hret.
  { intros [|l] o Hl Ho; [|lia].
    vm_compute in Ho. injection Ho as <-. eexists. vm_compute. reflexivity. }
  exact (zero_divisor_raises 1 (array [0; 0]) (array [0; 0]) (array [2; 1]) [] 0 0 1 5
           "g_radial" jit_kernel_g_radial [2]%nat 1%nat (Triple 0 0 1) ZeroDivisionError
           empty_world eq_refl eq_refl ltac:(simpl; lia)
           ltac:(simpl; lia) ltac:(simpl; lia) ltac:(simpl; lia) Hret eq_refl
           ltac:(vm_compute; reflexivity)).
Defined.

Lemma incompatible_shapes_raise_witness :
  broadcast_all [[2]; [3]; [1]]%nat = None
  ∧ point_mass_gravity 1 [array [0; 0]; array [0; 0; 0]; array [2]] [0; 0; 1] 5 "potential"
      empty_world
    = (empty_world, inl ShapeMismatch).
Proof.
  split; [reflexivity|].
  apply (incompatible_shapes_raise 1 [array [0; 0]; array [0; 0; 0]; array [2]]
           [0; 0; 1] 5 "potential" empty_world); [by left | reflexivity].
Defined.

Lemma wrong_point_length_raises_witness :
  length [0; 0] ≠ 3%nat
  ∧ ∃ w', point_mass_gravity 1 two_points [0; 0] 5 "g_radial" empty_world
          = (w', inl (UnpackError 3 (length [0; 0])))
        ∧ next w' = S (next empty_world)
        ∧ heap w' (next empty_world) = replicate (shape_size [2]%nat) 0
        ∧ (∀ a, a ≠ next empty_world → heap w' a = heap empty_world a)
        ∧ kernel_calls w' = kernel_calls empty_world.
Proof.
  split; [simpl; lia|].
  exact (wrong_point_length_raises 1 (array [0; 0]) (array [0; 0]) (array [2; 0]) []
           [0; 0] 5 "g_radial" [2]%nat empty_world
           (or_intror eq_refl) eq_refl ltac:(simpl; lia)).
Defined.

Lemma accumulation_stops_at_raise_witness :
  observation [0; 0] [0; 0] [2; 1] 1 = Some (Triple 0 0 1)
  ∧ jit_kernel_call jit_kernel_potential (Triple 0 0 1) (Triple 0 0 1) = inl ZeroDivisionError
  ∧ ∃ w', jit_point_mass_gravity [0; 0] [0; 0] (Own [2; 1]) [0; 0; 1] jit_kernel_potential
            0%nat filled_world = (w', inl ZeroDivisionError)
          ∧ length (heap w' 0) = length (heap filled_world 0)
          ∧ (∀ i, (1 ≤ i)%nat → heap w' 0 !! i = heap filled_world 0 !! i)
          ∧ (∀ i x o k, (i < 1)%nat → heap filled_world 0 !! i = Some x →
               observation [0; 0] [0; 0] [2; 1] i = Some o →
               jit_kernel_call jit_kernel_potential o (Triple 0 0 1) = inr k →
               heap w' 0 !! i = Some (x + k)).
Proof.
  split; [reflexivity|]. split; [vm_compute; reflexivity|].
  assert (∀ l o, (l < 1)%nat → observation [0; 0] [0; 0] [2; 1] l = Some o →
            ∃ k, jit_kernel_call jit_kernel_potential o (Triple 0 0 1) = inr k) as Hret.
  { intros [|l] o Hl Ho; [|lia].
    vm_compute in Ho. injection Ho as <-. eexists. vm_compute. reflexivity. }
  exact (accumulation_stops_at_raise [0; 0] [0; 0] [2; 1] 0 0 1 jit_kernel_potential 0%nat
           1%nat (Triple 0 0 1) ZeroDivisionError filled_world
           ltac:(unfold filled_world; simpl; lia)
           ltac:(simpl; lia) ltac:(simpl; lia) ltac:(simpl; lia) Hret eq_refl
           ltac:(vm_compute; reflexivity)).
Defined.

Lemma accumulation_frame_witness :
  raises_only_zero_division jit_kernel_potential
  ∧ let run := jit_point_mass_gravity [0; 0] [0; 0] (View 0 1 (-1)) [0; 0; 4]
                 jit_kernel_potential 0%nat filled_world in
    (run.2 = inr tt ∨ run.2 = inl ZeroDivisionError)
    ∧ (∀ a, a ≠ 0%nat → heap run.1 a = heap filled_world a)
    ∧ length (heap run.1 0) = length (heap filled_world 0).
Proof.
  split; [apply jit_kernel_potential_raises|].
  exact (accumulation_frame [0; 0] [0; 0] (View 0 1 (-1)) 0 0 4 jit_kernel_potential 0%nat
           filled_world jit_kernel_potential_raises).
Defined.

Lemma potential_kernel_symmetric_witness :
  2 * 2 * 1 = 2 * 1 * 2
  ∧ kernel_call kernel_potential (Triple 0 0 2) (Triple 0 0 1)
    = kernel_call kernel_potential (Triple 0 0 1) (Triple 0 0 2)
  ∧ jit_kernel_call jit_kernel_potential (Triple 0 0 2) (Triple 0 0 1)
    = jit_kernel_call jit_kernel_potential (Triple 0 0 1) (Triple 0 0 2).
Proof.
  split; [vm_compute; reflexivity|].
  exact (potential_kernel_symmetric (Triple 0 0 2) (Triple 0 0 1) eq_refl
           ltac:(vm_compute; reflexivity)).
Defined.
End Examples.
